(** * docs/conf.py of hipCUB: the Sphinx configuration module

    The repository fragment is one Python module, [docs/conf.py].  It imports
    the class [ROCmDocs] from the external package [rocm_docs], builds one
    instance, calls three of its methods, binds one string, and copies the
    attributes named by [ROCmDocs.SPHINX_VARS] into its own global namespace.

    This development has two parts.

    - [Text]: the file as text (its lines and its bytes).
    - [Py] and the sections after it: a shallow embedding of the module body.
      The module namespace is a finite map from names to values, the
      [rocm_docs] package is an interface whose operations transform an
      abstract library state and may raise, and the module body is a program
      in a state-and-exception monad that also keeps a log of every binding
      it makes and of every call it hands to the library.

    What the embedding takes for granted, [rocm_docs] not being part of the
    repository:

    - the package is a parameter ([Py.Library]): nothing is assumed of what
      its operations return, raise or do to their own state;
    - its operations have no access to the namespace of [conf.py];
    - [ROCmDocs.SPHINX_VARS] is a list of strings that stays the same while
      the loop runs;
    - what an attribute read or a call returns is an object the module never
      inspects;
    - the names the module reads ([ROCmDocs], [docs_core], [sphinx_var],
      [getattr], [globals]) are looked up as Python does: in the module
      namespace first, then among the builtins;
    - the namespace is empty when the body starts (the entries the
      interpreter puts there, such as [__name__], are never read or written
      by the body unless [SPHINX_VARS] names them, and are left out). *)

From Stdlib Require Import Ascii.
From stdpp Require Import gmap strings list fin_maps.

(** ** The file as text *)

Module Text.

(** The double-quote character (ASCII 34) and the line feed (ASCII 10). *)
Definition dq : string := String "034"%char EmptyString.
Definition nl : string := String "010"%char EmptyString.

(** The physical lines of [docs/conf.py], in order, without their terminators. *)
Definition conf_py_lines : list string :=
  [ "# Configuration file for the Sphinx documentation builder."
  ; "#"
  ; "# This file only contains a selection of the most common options. For a full"
  ; "# list see the documentation:"
  ; "# https://www.sphinx-doc.org/en/master/usage/configuration.html"
  ; ""
  ; "from rocm_docs import ROCmDocs"
  ; ""
  ; ""
  ; "docs_core = ROCmDocs(" +:+ dq +:+ "hipCUB Documentation" +:+ dq +:+ ")"
  ; "docs_core.run_doxygen()"
  ; "docs_core.enable_api_reference()"
  ; "docs_core.setup()"
  ; ""
  ; "external_projects_current_project = " +:+ dq +:+ "hipcub" +:+ dq
  ; ""
  ; "for sphinx_var in ROCmDocs.SPHINX_VARS:"
  ; "    globals()[sphinx_var] = getattr(docs_core, sphinx_var)" ].

(** The bytes of the file: its lines separated by line feeds.  The last line
    carries no terminator in the repository's file. *)
Definition conf_py : string := String.concat nl conf_py_lines.

(** Number of line feeds in a text. *)
Fixpoint newlines (s : string) : nat :=
  match s with
  | EmptyString => 0
  | String c rest => (if Ascii.eqb c "010" then 1 else 0) + newlines rest
  end.

(** Whether the last character of a text is a line feed. *)
Fixpoint ends_with_newline (s : string) : bool :=
  match s with
  | EmptyString => false
  | String c EmptyString => Ascii.eqb c "010"
  | String _ rest => ends_with_newline rest
  end.

(** Lines of a text: every line feed ends a line, and a non-empty tail after
    the last line feed is a line too. *)
Definition line_count (s : string) : nat :=
  newlines s +
  match s with
  | EmptyString => 0
  | _ => if ends_with_newline s then 0 else 1
  end.

(** Splitting a text at its line feeds (the pieces between them). *)
Fixpoint split_lines_aux (cur : string) (s : string) : list string :=
  match s with
  | EmptyString => [cur]
  | String c rest =>
      if Ascii.eqb c "010" then cur :: split_lines_aux EmptyString rest
      else split_lines_aux (cur +:+ String c EmptyString) rest
  end.

Definition split_lines (s : string) : list string := split_lines_aux EmptyString s.

End Text.

(** ** Values, results and the interface of [rocm_docs] *)

Module Py.

(** The outcome of an operation that may raise. *)
Inductive result (E A : Type) : Type :=
| Ok (a : A)
| Raise (e : E).
Arguments Ok {E A} a.
Arguments Raise {E A} e.

(** The two builtin functions [conf.py] uses.  A builtin is what a name denotes
    when the module namespace does not bind it. *)
Inductive builtin : Type := Bgetattr | Bglobals.

Definition builtin_of (n : string) : option builtin :=
  if decide (n = "getattr") then Some Bgetattr
  else if decide (n = "globals") then Some Bglobals
  else None.

(** Values the module handles: its own string literals, objects obtained from
    the library (the instance, attribute values, results of calls; the module
    never looks inside them), the class [ROCmDocs] bound by the import, the
    builtins, and the namespace dictionary that [globals()] returns. *)
Inductive value (Obj : Type) : Type :=
| VStr (s : string)
| VObj (o : Obj)
| VClass
| VBuiltin (b : builtin)
| VGlobals.
Arguments VStr {Obj} s.
Arguments VObj {Obj} o.
Arguments VClass {Obj}.
Arguments VBuiltin {Obj} b.
Arguments VGlobals {Obj}.

(** Exceptions: those the library raises, and the interpreter's own for an
    unbound name or an operation on a value of the wrong kind. *)
Inductive exn (Exc : Type) : Type :=
| Raised (e : Exc)
| NameError (n : string)
| TypeError.
Arguments Raised {Exc} e.
Arguments NameError {Exc} n.
Arguments TypeError {Exc}.

(** The package [rocm_docs], which is not part of this repository.  [World] is
    everything the library can see and change (its objects, the file system,
    processes it starts); each operation takes the current [World] and returns
    the next one with a result or an exception.  [SPHINX_VARS] is the class
    attribute [ROCmDocs.SPHINX_VARS], a list of names. *)
Class Library (World Obj Exc : Type) : Type := {
  SPHINX_VARS : list string;
  (** [from rocm_docs import ROCmDocs] *)
  import_rocm_docs : World → World * result Exc unit;
  (** [ROCmDocs(args)] *)
  ROCmDocs_new : list (value Obj) → World → World * result Exc Obj;
  (** [o.m(args)] *)
  invoke : value Obj → string → list (value Obj) → World → World * result Exc Obj;
  (** the builtin [getattr(o, n)] *)
  get_attribute : value Obj → string → World → World * result Exc Obj;
  (** [f(args)] for an object [f] of the library *)
  call_object : Obj → list (value Obj) → World → World * result Exc Obj;
  (** [d[k] = v] for an object [d] of the library *)
  set_item : Obj → value Obj → value Obj → World → World * result Exc unit;
  (** the names [c.SPHINX_VARS] yields for a [c] that is not the class *)
  foreign_names : value Obj → World → World * result Exc (list string);
}.

(** One entry of the log: a call handed to the library, with how it returned,
    or a binding made in the module namespace. *)
Inductive event (Obj Exc : Type) : Type :=
| EImport (r : result Exc unit)
| EConstruct (args : list (value Obj)) (r : result Exc Obj)
| EInvoke (o : value Obj) (m : string) (args : list (value Obj)) (r : result Exc Obj)
| EGetattr (o : value Obj) (n : string) (r : result Exc Obj)
| ECall (f : Obj) (args : list (value Obj)) (r : result Exc Obj)
| ESetitem (d : Obj) (k v : value Obj) (r : result Exc unit)
| ENames (c : value Obj) (r : result Exc (list string))
| EBind (n : string) (v : value Obj).
Arguments EImport {Obj Exc} r.
Arguments EConstruct {Obj Exc} args r.
Arguments EInvoke {Obj Exc} o m args r.
Arguments EGetattr {Obj Exc} o n r.
Arguments ECall {Obj Exc} f args r.
Arguments ESetitem {Obj Exc} d k v r.
Arguments ENames {Obj Exc} c r.
Arguments EBind {Obj Exc} n v.

(** The state of an execution: the module namespace, the library's world, and
    the log so far (oldest entry first). *)
Record state (World Obj Exc : Type) : Type := State {
  globals : gmap string (value Obj);
  world : World;
  trace : list (event Obj Exc);
}.
Arguments State {World Obj Exc} globals world trace.
Arguments globals {World Obj Exc} s.
Arguments world {World Obj Exc} s.
Arguments trace {World Obj Exc} s.

(** A fresh module namespace, before the first statement.  The entries the
    interpreter puts there are left out: the namespace of the embedding holds
    what the body binds. *)
Definition init {World Obj Exc : Type} (w : World) : state World Obj Exc :=
  State ∅ w [].

(** ** The monad of module-level statements *)

Definition M (World Obj Exc A : Type) : Type :=
  state World Obj Exc → state World Obj Exc * result (exn Exc) A.

Section Monad.
Context {World Obj Exc : Type}.
#[local] Abbreviation M := (M World Obj Exc).

Definition ret {A : Type} (a : A) : M A := λ s, (s, Ok a).

Definition raise {A : Type} (e : exn Exc) : M A := λ s, (s, Raise e).

Definition bind {A B : Type} (m : M A) (k : A → M B) : M B :=
  λ s, match m s with
       | (s', Ok a) => k a s'
       | (s', Raise e) => (s', Raise e)
       end.

End Monad.

Notation "x <- m ;; k" := (bind m (λ x, k))
  (at level 100, m at next level, right associativity, only parsing).
Notation "m ;;; k" := (bind m (λ _, k))
  (at level 100, right associativity, only parsing).

Section Statements.
Context {World Obj Exc : Type} {L : Library World Obj Exc}.
#[local] Abbreviation M := (M World Obj Exc).
#[local] Abbreviation value := (value Obj).
#[local] Abbreviation event := (event Obj Exc).

(** Reading a name: the module namespace first, then the builtins. *)
Definition load (n : string) : M value :=
  λ s, match globals s !! n with
       | Some v => (s, Ok v)
       | None =>
           match builtin_of n with
           | Some b => (s, Ok (VBuiltin b))
           | None => (s, Raise (NameError n))
           end
       end.

(** Binding a name in the module namespace. *)
Definition store (n : string) (v : value) : M unit :=
  λ s, (State (<[n:=v]> (globals s)) (world s) (trace s ++ [EBind n v]), Ok tt).

(** Handing one call to the library: the world moves on, the call is logged
    with its outcome, and an exception of the library is raised here as it is. *)
Definition foreign {A : Type} (op : World → World * result Exc A)
    (ev : result Exc A → event) : M A :=
  λ s, let (w, r) := op (world s) in
       (State (globals s) w (trace s ++ [ev r]),
        match r with Ok a => Ok a | Raise e => Raise (Raised e) end).

(** A call expression [f(args)], by what [f] is.  Calling an object of the
    library that is not callable is an outcome of [call_object] here (one of
    the exceptions it may raise), though Python raises that [TypeError] in the
    caller. *)
Definition call (f : value) (args : list value) : M value :=
  match f with
  | VClass => o <- foreign (ROCmDocs_new args) (EConstruct args) ;; ret (VObj o)
  | VObj g => o <- foreign (call_object g args) (ECall g args) ;; ret (VObj o)
  | VBuiltin Bgetattr =>
      match args with
      | [o; VStr n] => a <- foreign (get_attribute o n) (EGetattr o n) ;; ret (VObj a)
      | _ => raise TypeError
      end
  | VBuiltin Bglobals =>
      match args with
      | [] => ret VGlobals
      | _ => raise TypeError
      end
  | VStr _ | VGlobals => raise TypeError
  end.

(** A method call [o.m(args)]. *)
Definition call_method (o : value) (m : string) (args : list value) : M value :=
  r <- foreign (invoke o m args) (EInvoke o m args) ;; ret (VObj r).

(** A subscript assignment [d[k] = v].  On the namespace dictionary it binds
    the name [k]; on an object of the library it is the library's business,
    also when the object supports no item assignment.  The body only ever
    uses a string for [k]. *)
Definition setitem (d k v : value) : M unit :=
  match d with
  | VGlobals =>
      match k with
      | VStr n => store n v
      | _ => raise TypeError
      end
  | VObj o => foreign (set_item o k v) (ESetitem o k v)
  | _ => raise TypeError
  end.

(** The attribute [c.SPHINX_VARS], as the list of names a [for] loop over it
    visits. *)
Definition sphinx_vars_of (c : value) : M (list string) :=
  match c with
  | VClass => ret SPHINX_VARS
  | _ => foreign (foreign_names c) (ENames c)
  end.

(** [for x in l: body] *)
Fixpoint for_each {A : Type} (l : list A) (body : A → M unit) : M unit :=
  match l with
  | [] => ret tt
  | x :: l' => body x ;;; for_each l' body
  end.

(** *** The module body, line by line *)

(** line 7: [from rocm_docs import ROCmDocs] *)
Definition line7 : M unit :=
  foreign import_rocm_docs EImport ;;; store "ROCmDocs" VClass.

(** line 10: [docs_core = ROCmDocs("hipCUB Documentation")] *)
Definition line10 : M unit :=
  c <- load "ROCmDocs" ;;
  i <- call c [VStr "hipCUB Documentation"] ;;
  store "docs_core" i.

(** line 11: [docs_core.run_doxygen()] *)
Definition line11 : M unit :=
  d <- load "docs_core" ;; call_method d "run_doxygen" [] ;;; ret tt.

(** line 12: [docs_core.enable_api_reference()] *)
Definition line12 : M unit :=
  d <- load "docs_core" ;; call_method d "enable_api_reference" [] ;;; ret tt.

(** line 13: [docs_core.setup()] *)
Definition line13 : M unit :=
  d <- load "docs_core" ;; call_method d "setup" [] ;;; ret tt.

(** line 15: [external_projects_current_project = "hipcub"] *)
Definition line15 : M unit :=
  store "external_projects_current_project" (VStr "hipcub").

(** line 18: [globals()[sphinx_var] = getattr(docs_core, sphinx_var)].  The
    right-hand side is evaluated first, then the subscripted target. *)
Definition line18 : M unit :=
  f <- load "getattr" ;;
  d <- load "docs_core" ;;
  n <- load "sphinx_var" ;;
  v <- call f [d; n] ;;
  g <- load "globals" ;;
  ns <- call g [] ;;
  k <- load "sphinx_var" ;;
  setitem ns k v.

(** One turn of the loop: the loop variable, a module global, is bound to the
    next name, then line 18 runs. *)
Definition iteration (n : string) : M unit :=
  store "sphinx_var" (VStr n) ;;; line18.

(** lines 17-18: [for sphinx_var in ROCmDocs.SPHINX_VARS: ...].  The iterable
    is evaluated once, before the first turn. *)
Definition export_loop : M unit :=
  c <- load "ROCmDocs" ;;
  names <- sphinx_vars_of c ;;
  for_each names iteration.

(** lines 7-15: everything before the loop. *)
Definition preamble : M unit :=
  line7 ;;; line10 ;;; line11 ;;; line12 ;;; line13 ;;; line15.

(** The whole module body. *)
Definition conf : M unit := preamble ;;; export_loop.

(** Importing the module: the body runs in a fresh namespace. *)
Definition run_module (w : World) : state World Obj Exc * result (exn Exc) unit :=
  conf (init w).

End Statements.

End Py.

(** ** Reading the log *)

Import Py.

Section Log.
Context {World Obj Exc : Type} {L : Library World Obj Exc}.
#[local] Abbreviation M := (M World Obj Exc).
#[local] Abbreviation value := (value Obj).
#[local] Abbreviation event := (event Obj Exc).
#[local] Abbreviation state := (state World Obj Exc).

(** The constructor argument on line 10. *)
Definition title : value := VStr "hipCUB Documentation".

(** The exception a logged call ended with, if it raised. *)
Definition raises (ev : event) : option Exc :=
  match ev with
  | EImport (Raise e) | EConstruct _ (Raise e) | EInvoke _ _ _ (Raise e)
  | EGetattr _ _ (Raise e) | ECall _ _ (Raise e) | ESetitem _ _ _ (Raise e)
  | ENames _ (Raise e) => Some e
  | _ => None
  end.

(** A logged entry that did not raise: a binding, or a call that returned. *)
Definition returned (ev : event) : Prop := raises ev = None.

Definition is_construct (ev : event) : bool :=
  match ev with EConstruct _ _ => true | _ => false end.


(** The constructor calls of a log, in order. *)
Definition constructions (tr : list event) : list event := List.filter is_construct tr.

(** A call of the method [m], on any object and with any arguments. *)
Definition invokes (m : string) (ev : event) : Prop :=
  match ev with EInvoke _ m' _ _ => m' = m | _ => False end.

(** A read of an attribute through the builtin [getattr]. *)
Definition attribute_read (ev : event) : Prop :=
  match ev with EGetattr _ _ _ => True | _ => False end.

(** What the loop can log: bindings, and calls made on line 18. *)
Definition loop_event (ev : event) : Prop :=
  match ev with
  | EBind _ _ | EGetattr _ _ _ | ECall _ _ _ | ESetitem _ _ _ _ => True
  | _ => False
  end.

(** The names of the methods called in a log, in order. *)
Definition called_methods (tr : list event) : list string :=
  omap (λ ev, match ev with EInvoke _ m _ _ => Some m | _ => None end) tr.


(** The reads of attribute [n] in a log, oldest first, each with the object
    read and the outcome; and the last of them. *)
Definition reads_of (n : string) (tr : list event) : list (value * result Exc Obj) :=
  omap (λ ev, match ev with
              | EGetattr o m r => if decide (m = n) then Some (o, r) else None
              | _ => None
              end) tr.

Definition last_read (n : string) (tr : list event) : option (value * result Exc Obj) :=
  last (reads_of n tr).

(** The names a log binds. *)
Definition bound_names (tr : list event) : list string :=
  omap (λ ev, match ev with EBind n _ => Some n | _ => None end) tr.

(** The namespace that results from making the bindings of a log, in order. *)
Definition rebind (tr : list event) (g : gmap string value) : gmap string value :=
  fold_left (λ g ev, match ev with EBind n v => <[n:=v]> g | _ => g end) tr g.

(** The world after one logged entry: a call moves the world as the library
    does, a binding leaves it alone. *)
Definition redo (ev : event) (w : World) : World :=
  match ev with
  | EImport _ => (import_rocm_docs w).1
  | EConstruct args _ => (ROCmDocs_new args w).1
  | EInvoke o m args _ => (invoke o m args w).1
  | EGetattr o n _ => (get_attribute o n w).1
  | ECall f args _ => (call_object f args w).1
  | ESetitem d k v _ => (set_item d k v w).1
  | ENames c _ => (foreign_names c w).1
  | EBind _ _ => w
  end.

Definition replay (tr : list event) (w : World) : World :=
  fold_left (λ w ev, redo ev w) tr w.

(** Whether a logged outcome is what the library answers in world [w]. *)
Definition answered (ev : event) (w : World) : Prop :=
  match ev with
  | EImport r => (import_rocm_docs w).2 = r
  | EConstruct args r => (ROCmDocs_new args w).2 = r
  | EInvoke o m args r => (invoke o m args w).2 = r
  | EGetattr o n r => (get_attribute o n w).2 = r
  | ECall f args r => (call_object f args w).2 = r
  | ESetitem d k v r => (set_item d k v w).2 = r
  | ENames c r => (foreign_names c w).2 = r
  | EBind _ _ => True
  end.

(** A log every entry of which is a call the library really answered that way,
    each made in the world the entries before it left. *)
Fixpoint genuine (tr : list event) (w : World) : Prop :=
  match tr with
  | [] => True
  | ev :: tr' => answered ev w ∧ genuine tr' (redo ev w)
  end.

(** The log of lines 7 to 15 when every call returns: [i] is the instance,
    [a], [b], [c] what the three methods returned. *)
Definition imported : list event :=
  [EImport (Ok tt); EBind "ROCmDocs" VClass].

Definition built (i : Obj) : list event :=
  imported ++ [EConstruct [title] (Ok i); EBind "docs_core" (VObj i)].

Definition documented (i a : Obj) : list event :=
  built i ++ [EInvoke (VObj i) "run_doxygen" [] (Ok a)].

Definition referenced (i a b : Obj) : list event :=
  documented i a ++ [EInvoke (VObj i) "enable_api_reference" [] (Ok b)].

Definition set_up (i a b c : Obj) : list event :=
  referenced i a b ++ [EInvoke (VObj i) "setup" [] (Ok c)].

Definition header (i a b c : Obj) : list event :=
  set_up i a b c ++ [EBind "external_projects_current_project" (VStr "hipcub")].

(** The namespace lines 7 to 15 leave, from namespace [g]. *)
Definition preamble_globals (i : Obj) (g : gmap string value) : gmap string value :=
  <["external_projects_current_project" := VStr "hipcub"]>
    (<["docs_core" := VObj i]> (<["ROCmDocs" := VClass]> g)).

(** The logs lines 7 to 15 can leave, with how they end: one of the five
    calls raised, or all returned. *)
Inductive preamble_log : list event → result (exn Exc) unit → Prop :=
| pl_import e :
    preamble_log [EImport (Raise e)] (Raise (Raised e))
| pl_new e :
    preamble_log (imported ++ [EConstruct [title] (Raise e)]) (Raise (Raised e))
| pl_doxygen i e :
    preamble_log (built i ++ [EInvoke (VObj i) "run_doxygen" [] (Raise e)])
      (Raise (Raised e))
| pl_api i a e :
    preamble_log
      (documented i a ++ [EInvoke (VObj i) "enable_api_reference" [] (Raise e)])
      (Raise (Raised e))
| pl_setup i a b e :
    preamble_log (referenced i a b ++ [EInvoke (VObj i) "setup" [] (Raise e)])
      (Raise (Raised e))
| pl_done i a b c :
    preamble_log (header i a b c) (Ok tt).

(** The logs of the whole module: lines 7 to 15 stopped at a call that
    raised, or they completed and the loop added its entries. *)
Inductive module_log : list event → result (exn Exc) unit → Prop :=
| ml_stopped evs e :
    preamble_log evs (Raise e) → module_log evs (Raise e)
| ml_looped i a b c evs r :
    Forall loop_event evs → module_log (header i a b c ++ evs) r.

(** A namespace in which every name but [ROCmDocs] is bound to a string or to
    an object of the library (so none is bound to the class, to a builtin or
    to the namespace dictionary). *)
Definition plain (v : value) : Prop :=
  match v with VStr _ | VObj _ => True | _ => False end.

Definition tame (g : gmap string value) : Prop :=
  ∀ n v, g !! n = Some v → n ≠ "ROCmDocs" → plain v.

(** The loop as a plain recursion, for a namespace in which [getattr] and
    [globals] are the builtins and [docs_core] is [d]: each turn binds the
    loop variable, reads one attribute of [d] and binds it under its name;
    a read that raises ends the loop. *)
Fixpoint export_from (d : value) (names : list string) (s : state) :
    state * result (exn Exc) unit :=
  match names with
  | [] => (s, Ok tt)
  | n :: rest =>
      match (get_attribute d n (world s)).2 with
      | Ok a =>
          export_from d rest
            (State (<[n := VObj a]> (<["sphinx_var" := VStr n]> (globals s)))
                   (get_attribute d n (world s)).1
                   (trace s ++ [EBind "sphinx_var" (VStr n);
                                EGetattr d n (Ok a);
                                EBind n (VObj a)]))
      | Raise e =>
          (State (<["sphinx_var" := VStr n]> (globals s))
                 (get_attribute d n (world s)).1
                 (trace s ++ [EBind "sphinx_var" (VStr n); EGetattr d n (Raise e)]),
           Raise (Raised e))
      end
  end.

(** The namespace after exporting attributes whose values are [a n]. *)
Definition exported (a : string → Obj) (names : list string)
    (g : gmap string value) : gmap string value :=
  fold_left (λ g n, <[n := VObj (a n)]> (<["sphinx_var" := VStr n]> g)) names g.

(** The library calls the module can make, each paired with its log entry. *)
Inductive library_call :
  ∀ A : Type, (World → World * result Exc A) → (result Exc A → event) → Prop :=
| lc_import : library_call unit import_rocm_docs EImport
| lc_construct args : library_call Obj (ROCmDocs_new args) (EConstruct args)
| lc_invoke o m args : library_call Obj (invoke o m args) (EInvoke o m args)
| lc_getattr o n : library_call Obj (get_attribute o n) (EGetattr o n)
| lc_call f args : library_call Obj (call_object f args) (ECall f args)
| lc_setitem d k v : library_call unit (set_item d k v) (ESetitem d k v)
| lc_names c : library_call (list string) (foreign_names c) (ENames c).

(** How a statement ended, without its value. *)
Definition outcome {A : Type} (r : result (exn Exc) A) : option (exn Exc) :=
  match r with Ok _ => None | Raise e => Some e end.

(** Endings that involve no library call: normal completion and the
    interpreter's own errors. *)
Definition internal (o : option (exn Exc)) : Prop :=
  match o with Some (Raised _) => False | _ => True end.

(** A statement obeys a property [P] of (state before, entries logged, state
    after, ending) when it only appends to the log and [P] holds of every run. *)
Definition obeys (P : state → list event → state → option (exn Exc) → Prop)
    {A : Type} (m : M A) : Prop :=
  ∀ s, ∃ evs, trace (m s).1 = trace s ++ evs ∧ P s evs (m s).1 (outcome (m s).2).

(** *** The properties of the log that hold of every statement *)

(** Calls that raised are nowhere but at the end, and the ending is the
    exception of that last call. *)
Definition raise_ends (_ : state) (evs : list event) (_ : state)
    (o : option (exn Exc)) : Prop :=
  match o with
  | Some (Raised e) =>
      ∃ pre ev, evs = pre ++ [ev] ∧ Forall returned pre ∧ raises ev = Some e
  | _ => Forall returned evs
  end.

(** The state after is the state before with the logged bindings made and
    the logged calls done, and each logged outcome is the library's. *)
Definition accounted (s : state) (evs : list event) (s' : state)
    (_ : option (exn Exc)) : Prop :=
  world s' = replay evs (world s) ∧
  globals s' = rebind evs (globals s) ∧
  genuine evs (world s).

(** The names of the attributes read in a log, in order. *)
Definition read_names (tr : list event) : list string :=
  omap (λ ev, match ev with EGetattr _ n _ => Some n | _ => None end) tr.

(** A namespace that binds [docs_core]. *)
Definition docs_core_bound (g : gmap string value) : Prop :=
  is_Some (g !! "docs_core").


End Log.

(** ** The claims of the specification, as predicates on an execution *)

Section Claims.
Context {World Obj Exc : Type} {L : Library World Obj Exc}.
#[local] Abbreviation value := (value Obj).
#[local] Abbreviation state := (state World Obj Exc).

(** Every name of [SPHINX_VARS] is bound, after a complete execution, to the
    value the last read of that attribute on the constructed instance gave. *)
Definition exports_every_name (w : World) : Prop :=
  ∀ s : state, run_module w = (s, Ok tt) →
    ∃ i, constructions (trace s) = [EConstruct [title] (Ok i)] ∧
      ∀ n, n ∈ SPHINX_VARS →
        ∃ a, globals s !! n = Some (VObj a) ∧
             last_read n (trace s) = Some (VObj i, Ok a).

(** The loop leaves every binding outside [SPHINX_VARS] as it found it; and
    when ["external_projects_current_project"] is not in [SPHINX_VARS], that
    global is still ["hipcub"] and [docs_core] is still the instance built on
    line 10. *)
Definition loop_touches_only_sphinx_vars (w : World) : Prop :=
  ∀ s0 s : state,
    preamble (init w) = (s0, Ok tt) → export_loop s0 = (s, Ok tt) →
    (∀ n, n ∉ SPHINX_VARS → globals s !! n = globals s0 !! n) ∧
    ("external_projects_current_project" ∉ SPHINX_VARS →
       globals s !! "external_projects_current_project" = Some (VStr "hipcub") ∧
       ∃ i, constructions (trace s) = [EConstruct [title] (Ok i)] ∧
            globals s !! "docs_core" = Some (VObj i)).

(** Reads of the [SPHINX_VARS] attributes of [d] are deterministic: whatever
    the world, reading [n] gives [a n]. *)
Definition deterministic_reads (d : value) (a : string → Obj) : Prop :=
  ∀ n w, n ∈ SPHINX_VARS → ∃ w', get_attribute d n w = (w', Ok (a n)).

(** With [docs_core] fixed (the loop does not rebind it) and deterministic
    reads, running the loop again right after its first run leaves the
    namespace as the first run left it. *)
Definition loop_idempotent (w : World) : Prop :=
  ∀ (s0 s1 s2 : state) d a r,
    preamble (init w) = (s0, Ok tt) →
    globals s0 !! "docs_core" = Some d →
    "docs_core" ∉ SPHINX_VARS →
    deterministic_reads d a →
    export_loop s0 = (s1, Ok tt) →
    export_loop s1 = (s2, r) →
    globals s2 = globals s1.

(** One call completes before another begins: in the log, every entry of the
    second kind comes after an entry of the first kind that returned, and no
    entry of the first kind comes after one of the second. *)
Definition before (P Q : event Obj Exc → Prop) (tr : list (event Obj Exc)) : Prop :=
  (∀ j q, tr !! j = Some q → Q q →
     ∃ i p, i < j ∧ tr !! i = Some p ∧ P p ∧ returned p) ∧
  (∀ i j p q, tr !! i = Some p → tr !! j = Some q → P p → Q q → i < j).

End Claims.

(** ** A small library to run the module against

    The world is a journal of what the library was asked to do.  [toy vars bad]
    has [vars] for [SPHINX_VARS]; the operation named [bad] (["import"],
    ["new"], a method name, an attribute name) raises, every other one
    returns. *)

Definition toy (vars : list string) (bad : string) :
    Library (list string) string string := {|
  SPHINX_VARS := vars;
  import_rocm_docs w :=
    (w ++ ["import"], if decide (bad = "import") then Raise "ImportError" else Ok tt);
  ROCmDocs_new args w :=
    (w ++ ["new"], if decide (bad = "new") then Raise "no project" else Ok "docs");
  invoke o m args w :=
    (w ++ [m], if decide (bad = m) then Raise ("failed in " +:+ m) else Ok "None");
  get_attribute o n w :=
    (w, if decide (bad = n) then Raise ("no attribute " +:+ n) else Ok ("value of " +:+ n));
  call_object f args w := (w ++ ["call " +:+ f], Ok ("result of " +:+ f));
  set_item d k v w := (w ++ ["item of " +:+ d], Ok tt);
  foreign_names c w := (w, Raise "no attribute SPHINX_VARS");
|}.

(** A list of Sphinx variable names, for the runs below. *)
Definition sphinx_names : list string :=
  ["extensions"; "html_title"; "html_theme"; "html_theme_options"].

(** Four libraries: one in which every call returns, one in which [setup()]
    raises, one whose [SPHINX_VARS] names the loop variable, and one whose
    [SPHINX_VARS] names the builtin [getattr]. *)
Definition all_returns : Library (list string) string string :=
  toy sphinx_names "".

Definition setup_raises : Library (list string) string string :=
  toy sphinx_names "setup".

Definition names_loop_variable : Library (list string) string string :=
  toy ["sphinx_var"; "html_title"] "".

Definition names_getattr : Library (list string) string string :=
  toy ["getattr"] "".

(** ** The text of the file *)

(** C6: [docs/conf.py] consists of exactly 18 lines.  Its 531 bytes hold 17
    line feeds and a last line that has no terminator. *)
Theorem conf_py_has_18_lines :
  Text.line_count Text.conf_py = 18 ∧
  String.length Text.conf_py = 531 ∧
  Text.newlines Text.conf_py = 17 ∧
  Text.ends_with_newline Text.conf_py = false ∧
  Text.split_lines Text.conf_py = Text.conf_py_lines ∧
  length Text.conf_py_lines = 18.
Proof. repeat split; vm_compute; reflexivity. Qed.

(** ** Properties of the log that every statement keeps *)

Section Obeys.
Context {World Obj Exc : Type} {L : Library World Obj Exc}.
#[local] Abbreviation M := (M World Obj Exc).
#[local] Abbreviation value := (value Obj).
#[local] Abbreviation event := (event Obj Exc).
#[local] Abbreviation state := (state World Obj Exc).

Variable P : state → list event → state → option (exn Exc) → Prop.

Hypothesis P_idle : ∀ s o, internal o → P s [] s o.
Hypothesis P_seq : ∀ s evs1 s1 evs2 s2 o,
  P s evs1 s1 None → P s1 evs2 s2 o → P s (evs1 ++ evs2) s2 o.
Hypothesis P_store : ∀ s n v,
  P s [EBind n v] (State (<[n:=v]> (globals s)) (world s) (trace s ++ [EBind n v])) None.
Hypothesis P_foreign : ∀ A op ev, library_call A op ev → ∀ s,
  P s [ev (op (world s)).2]
    (State (globals s) (op (world s)).1 (trace s ++ [ev (op (world s)).2]))
    (match (op (world s)).2 with Ok _ => None | Raise e => Some (Raised e) end).

Lemma obeys_ret {A} (a : A) : obeys P (ret a).
Proof. intros s. exists []. cbn. rewrite app_nil_r. split; [done|]. by apply P_idle. Qed.

Lemma obeys_raise {A} (e : exn Exc) :
  internal (Some e) → obeys P (raise (A:=A) e).
Proof. intros He s. exists []. cbn. rewrite app_nil_r. split; [done|]. by apply P_idle. Qed.

Lemma obeys_bind {A B} (m : M A) (k : A → M B) :
  obeys P m → (∀ a, obeys P (k a)) → obeys P (bind m k).
Proof.
  intros Hm Hk s. unfold bind.
  destruct (Hm s) as (evs1 & Ht1 & H1).
  destruct (m s) as [s1 [a|e]]; cbn in *.
  - destruct (Hk a s1) as (evs2 & Ht2 & H2).
    exists (evs1 ++ evs2). split.
    + by rewrite Ht2, Ht1, app_assoc.
    + by eapply P_seq.
  - by exists evs1.
Qed.

Lemma obeys_load n : obeys P (load n).
Proof.
  intros s. exists []. unfold load. rewrite app_nil_r.
  destruct (globals s !! n); [|destruct (builtin_of n)]; cbn;
    (split; [done|]); by apply P_idle.
Qed.

Lemma obeys_store n v : obeys P (store n v).
Proof. intros s. exists [EBind n v]. cbn. split; [done|]. apply P_store. Qed.

Lemma obeys_foreign {A} op ev : library_call A op ev → obeys P (foreign op ev).
Proof.
  intros Hc s. pose proof (P_foreign _ _ _ Hc s) as H.
  unfold foreign. destruct (op (world s)) as [w r]; cbn in *.
  exists [ev r]. split; [done|]. by destruct r.
Qed.

Lemma obeys_call f args : obeys P (call f args).
Proof.
  destruct f as [?|g| |[]|]; cbn;
    repeat first
      [ apply obeys_raise; exact I
      | apply obeys_ret
      | apply obeys_bind; [|intros ?]
      | apply obeys_foreign; constructor
      | match goal with |- obeys _ (match ?x with _ => _ end) => destruct x end ].
Qed.

Lemma obeys_call_method o m args : obeys P (call_method o m args).
Proof.
  apply obeys_bind; [apply obeys_foreign; constructor | intros; apply obeys_ret].
Qed.

Lemma obeys_setitem d k v : obeys P (setitem d k v).
Proof.
  destruct d; cbn; try (apply obeys_raise; exact I).
  - apply obeys_foreign; constructor.
  - destruct k; try (apply obeys_raise; exact I). apply obeys_store.
Qed.

Lemma obeys_sphinx_vars_of c : obeys P (sphinx_vars_of c).
Proof.
  destruct c; cbn; try (apply obeys_foreign; constructor). apply obeys_ret.
Qed.

Lemma obeys_for_each {A} (l : list A) body :
  (∀ x, obeys P (body x)) → obeys P (for_each l body).
Proof.
  intros Hb. induction l as [|x l IH]; cbn.
  - apply obeys_ret.
  - apply obeys_bind; [apply Hb | intros; apply IH].
Qed.

Lemma obeys_line18 : obeys P line18.
Proof.
  unfold line18.
  repeat first
    [ apply obeys_load | apply obeys_call | apply obeys_setitem
    | apply obeys_bind; [|intros ?] ].
Qed.

Lemma obeys_export_loop : obeys P export_loop.
Proof.
  unfold export_loop.
  apply obeys_bind; [apply obeys_load | intros c].
  apply obeys_bind; [apply obeys_sphinx_vars_of | intros names].
  apply obeys_for_each. intros n.
  apply obeys_bind; [apply obeys_store | intros; apply obeys_line18].
Qed.

Lemma obeys_preamble : obeys P preamble.
Proof.
  unfold preamble, line7, line10, line11, line12, line13, line15.
  repeat first
    [ apply obeys_load | apply obeys_call | apply obeys_call_method
    | apply obeys_store | apply obeys_ret
    | apply obeys_foreign; constructor
    | apply obeys_bind; [|intros ?] ].
Qed.

Lemma obeys_conf : obeys P conf.
Proof.
  apply obeys_bind; [apply obeys_preamble | intros; apply obeys_export_loop].
Qed.

End Obeys.

(** ** The two properties, for the whole module *)

Section Accounting.
Context {World Obj Exc : Type} {L : Library World Obj Exc}.
#[local] Abbreviation value := (value Obj).
#[local] Abbreviation event := (event Obj Exc).
#[local] Abbreviation state := (state World Obj Exc).

Lemma run_module_pair (w : World) : run_module w = ((run_module w).1, (run_module w).2).
Proof. by destruct (run_module w). Qed.

Lemma raises_returned (ev : event) e : raises ev = Some e → ¬ returned ev.
Proof. unfold returned. congruence. Qed.

Lemma replay_app (tr1 tr2 : list event) w :
  replay (tr1 ++ tr2) w = replay tr2 (replay tr1 w).
Proof. apply fold_left_app. Qed.

Lemma rebind_app (tr1 tr2 : list event) g :
  rebind (tr1 ++ tr2) g = rebind tr2 (rebind tr1 g).
Proof. apply fold_left_app. Qed.

Lemma genuine_app (tr1 tr2 : list event) w :
  genuine (tr1 ++ tr2) w ↔ genuine tr1 w ∧ genuine tr2 (replay tr1 w).
Proof.
  revert w. induction tr1 as [|ev tr1 IH]; intros w; cbn.
  - tauto.
  - rewrite IH. tauto.
Qed.

(** A list that ends in [ev'] and has [ev] somewhere: [ev] is that last
    element, or it lies before it. *)
Lemma last_or_earlier {A} (pre pre' post : list A) ev ev' :
  pre' ++ [ev'] = pre ++ ev :: post →
  (post = [] ∧ pre = pre' ∧ ev = ev') ∨ ev ∈ pre'.
Proof.
  destruct post as [|x post _] using rev_ind; intros H.
  - left. apply app_inj_tail in H as [-> ->]. done.
  - right. change (pre ++ ev :: post ++ [x]) with (pre ++ (ev :: post) ++ [x]) in H.
    rewrite app_assoc in H. apply app_inj_tail in H as [-> _].
    apply elem_of_app. right. apply elem_of_cons. by left.
Qed.

Lemma raise_ends_conf : obeys raise_ends (conf (L:=L)).
Proof.
  apply obeys_conf.
  - intros s [[]|] Hi; cbn in *; done.
  - intros s evs1 s1 evs2 s2 o H1 H2. cbn in H1.
    destruct o as [[e| |]|]; cbn in *; try (by apply Forall_app).
    destruct H2 as (pre & ev & -> & Hpre & Hev).
    exists (evs1 ++ pre), ev. rewrite app_assoc. split_and!; [done| |done].
    by apply Forall_app.
  - intros s n v. cbn. by repeat constructor.
  - intros A op ev [] s;
      match goal with
      | |- context [(?f (world s)).2] => destruct (f (world s)) as [w [a|e]]
      end; cbn;
      first [ by repeat constructor
            | eexists [], _; split_and!; [done|constructor|done] ].
Qed.

Lemma accounted_conf : obeys accounted (conf (L:=L)).
Proof.
  apply obeys_conf.
  - intros s o _. by repeat split.
  - intros s evs1 s1 evs2 s2 o (Hw1 & Hg1 & Hq1) (Hw2 & Hg2 & Hq2).
    split_and!.
    + by rewrite replay_app, <- Hw1.
    + by rewrite rebind_app, <- Hg1.
    + apply genuine_app. by rewrite <- Hw1.
  - intros s n v. by repeat split.
  - intros A op ev [] s; by repeat split.
Qed.

(** C4: no statement of the module is guarded.  Whatever call of the library
    raises (the import, the constructor, one of the three methods, a
    [getattr] of the loop, or any other call the log holds), that call is the
    last entry of the log: nothing is done after it, and no binding is made
    after it.  The execution ends with that very exception, and the
    namespace holds exactly the bindings made before the call. *)
Theorem failure_propagates (w : World) (s : state) r :
  run_module w = (s, r) →
  ∀ pre ev post e, trace s = pre ++ ev :: post → raises ev = Some e →
    post = [] ∧ r = Raise (Raised e) ∧ globals s = rebind pre ∅.
Proof.
  intros Hrun pre ev post e Htr Hev.
  destruct (raise_ends_conf (init w)) as (evs & Hevs & Hend).
  destruct (accounted_conf (init w)) as (evs' & Hevs' & _ & Hglob & _).
  fold (run_module w) in *. rewrite Hrun in *. cbn in *.
  subst evs' evs.
  assert (Hlast : post = [] ∧ r = Raise (Raised e)).
  { destruct r as [[]|[e'| |]]; cbn in Hend.
    - exfalso. rewrite Htr in Hend. apply Forall_app in Hend as [_ Hend].
      apply Forall_cons in Hend as [Hend _]. exact (raises_returned _ _ Hev Hend).
    - destruct Hend as (pre' & ev' & Heq & Hpre & Hev').
      rewrite Htr in Heq. symmetry in Heq.
      apply last_or_earlier in Heq as [(-> & -> & ->)|Hin].
      + split; [done|]. congruence.
      + exfalso. rewrite Forall_forall in Hpre.
        exact (raises_returned _ _ Hev (Hpre _ Hin)).
    - exfalso. rewrite Htr in Hend. apply Forall_app in Hend as [_ Hend].
      apply Forall_cons in Hend as [Hend _]. exact (raises_returned _ _ Hev Hend).
    - exfalso. rewrite Htr in Hend. apply Forall_app in Hend as [_ Hend].
      apply Forall_cons in Hend as [Hend _]. exact (raises_returned _ _ Hev Hend). }
  destruct Hlast as [-> ->]. split_and!; [done..|].
  rewrite Hglob, Htr, rebind_app. cbn. by destruct ev.
Qed.

End Accounting.

(** ** Running statements one step at a time *)

Section Stepping.
Context {World Obj Exc : Type} {L : Library World Obj Exc}.
#[local] Abbreviation M := (M World Obj Exc).
#[local] Abbreviation value := (value Obj).
#[local] Abbreviation event := (event Obj Exc).
#[local] Abbreviation state := (state World Obj Exc).

Lemma bind_ret {A B} (a : A) (k : A → M B) s : bind (ret a) k s = k a s.
Proof. reflexivity. Qed.

Lemma bind_raise {A B} e (k : A → M B) s : bind (raise e) k s = (s, Raise e).
Proof. reflexivity. Qed.

Lemma bind_assoc {A B C} (m : M A) (k1 : A → M B) (k2 : B → M C) s :
  bind (bind m k1) k2 s = bind m (λ a, bind (k1 a) k2) s.
Proof. unfold bind. by destruct (m s) as [? []]. Qed.

Lemma bind_store {B} n v (k : unit → M B) s :
  bind (store n v) k s =
  k tt (State (<[n:=v]> (globals s)) (world s) (trace s ++ [EBind n v])).
Proof. reflexivity. Qed.

Lemma bind_load {B} n (k : value → M B) s :
  bind (load n) k s =
  match globals s !! n with
  | Some v => k v s
  | None =>
      match builtin_of n with
      | Some b => k (VBuiltin b) s
      | None => (s, Raise (NameError n))
      end
  end.
Proof.
  unfold bind, load. destruct (globals s !! n); [done|]. by destruct (builtin_of n).
Qed.

Lemma bind_foreign {A B} (op : World → World * result Exc A)
    (ev : result Exc A → event) (k : A → M B) s :
  bind (foreign op ev) k s =
  match (op (world s)).2 with
  | Ok a => k a (State (globals s) (op (world s)).1 (trace s ++ [ev (Ok a)]))
  | Raise e =>
      (State (globals s) (op (world s)).1 (trace s ++ [ev (Raise e)]),
       Raise (Raised e))
  end.
Proof. unfold bind, foreign. by destruct (op (world s)) as [w [a|e]]. Qed.

Lemma run_foreign {A} (op : World → World * result Exc A)
    (ev : result Exc A → event) s :
  foreign op ev s =
  (State (globals s) (op (world s)).1 (trace s ++ [ev (op (world s)).2]),
   match (op (world s)).2 with Ok a => Ok a | Raise e => Raise (Raised e) end).
Proof. unfold foreign. by destruct (op (world s)) as [w [a|e]]. Qed.

End Stepping.

(** Lookups in a namespace built by insertions, at literal names. *)
Ltac lookups :=
  cbn [globals world trace];
  repeat first
    [ rewrite lookup_insert_eq
    | rewrite lookup_insert_ne by done ];
  cbv beta iota.

(** One step of a program applied to a state.  A lookup that the insertions
    do not settle is split in its two cases; [known] is tried on what the
    namespace holds there. *)
Ltac exec_step known :=
  first
  [ rewrite bind_ret | rewrite bind_raise | rewrite bind_assoc | rewrite bind_store
  | rewrite bind_load; lookups
  | rewrite bind_foreign; cbn [globals world trace]
  | rewrite run_foreign; cbn [globals world trace]
  | match goal with
    | |- context [builtin_of ?n] =>
        let r := eval vm_compute in (builtin_of n) in
        change (builtin_of n) with r; cbv beta iota
    | |- context [match ?g !! ?n with _ => _ end] =>
        let v := fresh "v" in
        let H := fresh "H" in
        destruct (g !! n) as [v|] eqn:H; [ try (known v H) | ]
    | |- context [match (?op ?w).2 with _ => _ end] =>
        destruct (op w) as [? [?|?]] eqn:?; cbn [fst snd]
    | |- context [call_method _ _ _] => unfold call_method
    | |- context [call ?f ?args] => progress cbn [call]
    | |- context [setitem _ _ _] => progress cbn [setitem]
    | |- context [sphinx_vars_of _] => progress cbn [sphinx_vars_of]
    | |- context [store ?n ?v ?s] => unfold store; cbn [globals world trace]
    end ].

Ltac exec := repeat exec_step ltac:(fun v H => idtac).

(** After the last step: the run is a pair of a state and a result; name it,
    and put the log in the form [old ++ entries]. *)
Ltac settle :=
  intros [= <- <-];
  repeat match goal with a : unit |- _ => destruct a end;
  cbn [trace globals world fst snd];
  rewrite <- ?app_assoc; cbn [app].

(** ** What lines 7 to 15 and the loop do *)

Section Execution.
Context {World Obj Exc : Type} {L : Library World Obj Exc}.
#[local] Abbreviation M := (M World Obj Exc).
#[local] Abbreviation value := (value Obj).
#[local] Abbreviation event := (event Obj Exc).
#[local] Abbreviation state := (state World Obj Exc).

(** Lines 7 to 15, from any state: the log grows by one of the six shapes, and
    when all five calls return the namespace is the expected one. *)
Lemma preamble_run (s s' : state) r :
  preamble s = (s', r) →
  ∃ evs, trace s' = trace s ++ evs ∧ preamble_log evs r ∧
    (r = Ok tt → ∃ i a b c,
       evs = header i a b c ∧ globals s' = preamble_globals i (globals s)).
Proof.
  destruct s as [g w tr].
  unfold preamble, line7, line10, line11, line12, line13, line15.
  exec; settle.
  all: eexists; split; [reflexivity|]; split; [|first [done|intros _]].
  all: try (by econstructor).
  by eexists _, _, _, _.
Qed.

Lemma tame_insert (g : gmap string value) k v :
  tame g → plain v → tame (<[k:=v]> g).
Proof.
  intros Hg Hv n v' Hn Hne. destruct (decide (k = n)) as [->|].
  - rewrite lookup_insert_eq in Hn. by simplify_eq.
  - rewrite lookup_insert_ne in Hn by done. by eapply Hg.
Qed.

Lemma tame_preamble_globals (i : Obj) : tame (preamble_globals i ∅).
Proof.
  intros n v Hn Hne. unfold preamble_globals in Hn.
  repeat match type of Hn with
         | <[?k:=_]> _ !! _ = _ =>
             destruct (decide (k = n)) as [<-|];
             [rewrite lookup_insert_eq in Hn; by simplify_eq
             |rewrite lookup_insert_ne in Hn by done]
         end.
  by rewrite lookup_empty in Hn.
Qed.

(** One turn of the loop, from a tame namespace: it binds the loop variable,
    then logs calls of line 18 only, and binds at most the name [n], to an
    object of the library. *)
Lemma iteration_run n (s s' : state) r :
  tame (globals s) → iteration n s = (s', r) →
  ∃ evs, trace s' = trace s ++ EBind "sphinx_var" (VStr n) :: evs ∧
         Forall loop_event evs ∧
         Forall (λ k, k = n) (bound_names evs) ∧
         (globals s' = <["sphinx_var" := VStr n]> (globals s) ∨
          ∃ o, globals s' = <[n := VObj o]> (<["sphinx_var" := VStr n]> (globals s))).
Proof.
  intros Ht. destruct s as [g w tr]. cbn in Ht.
  unfold iteration. rewrite bind_store. unfold line18.
  repeat exec_step ltac:(fun v H =>
    pose proof (Ht _ _ H ltac:(done)); destruct v; try done).
  all: settle.
  all: eexists; split; [reflexivity|]; split; [repeat constructor|].
  all: split; [cbn; repeat constructor|eauto].
Qed.

(** The loop over any list of names, from a tame namespace: it logs loop
    entries only, keeps the namespace tame, binds no name other than the loop
    variable and the names of the list, and leaves every other binding as it
    was. *)
Lemma loop_run names (s s' : state) r :
  tame (globals s) → for_each names iteration s = (s', r) →
  ∃ evs, trace s' = trace s ++ evs ∧
         Forall loop_event evs ∧
         Forall (λ k, k = "sphinx_var" ∨ k ∈ names) (bound_names evs) ∧
         tame (globals s') ∧
         (∀ k, k ∉ names → k ≠ "sphinx_var" → globals s' !! k = globals s !! k).
Proof.
  revert s. induction names as [|n names IH]; intros s Ht Hrun; cbn in Hrun.
  - injection Hrun as <- <-. exists []. rewrite app_nil_r.
    split_and!; try done; constructor.
  - unfold bind in Hrun. destruct (iteration n s) as [s1 [[]|e]] eqn:Hn.
    + destruct (iteration_run _ _ _ _ Ht Hn) as (evs1 & Htr1 & Hev1 & Hb1 & Hg1).
      assert (Ht1 : tame (globals s1)).
      { destruct Hg1 as [->|[o ->]]; repeat apply tame_insert; done. }
      destruct (IH _ Ht1 Hrun) as (evs2 & Htr2 & Hev2 & Hb2 & Ht2 & Hfr2).
      exists (EBind "sphinx_var" (VStr n) :: evs1 ++ evs2).
      split_and!.
      * rewrite Htr2, Htr1, <- app_assoc. done.
      * constructor; [done|]. by apply Forall_app.
      * unfold bound_names. cbn. constructor; [by left|].
        rewrite omap_app. apply Forall_app. split.
        -- eapply Forall_impl; [exact Hb1|]. intros k ->. right. by left.
        -- eapply Forall_impl; [exact Hb2|]. intros k [->|Hk]; [by left|].
           right. by right.
      * done.
      * intros k Hk Hsv. apply not_elem_of_cons in Hk as [Hkn Hkl].
        rewrite Hfr2 by done.
        destruct Hg1 as [->|[o ->]];
          repeat rewrite lookup_insert_ne by done; done.
    + injection Hrun as <- <-.
      destruct (iteration_run _ _ _ _ Ht Hn) as (evs1 & Htr1 & Hev1 & Hb1 & Hg1).
      exists (EBind "sphinx_var" (VStr n) :: evs1).
      split_and!.
      * done.
      * by constructor.
      * unfold bound_names. cbn. constructor; [by left|].
        eapply Forall_impl; [exact Hb1|]. intros k ->. right. by left.
      * destruct Hg1 as [->|[o ->]]; repeat apply tame_insert; done.
      * intros k Hk Hsv. apply not_elem_of_cons in Hk as [Hkn Hkl].
        destruct Hg1 as [->|[o ->]];
          repeat rewrite lookup_insert_ne by done; done.
Qed.

Lemma bind_ext {A B} (m : M A) (k1 k2 : A → M B) s :
  (∀ a s', k1 a s' = k2 a s') → bind m k1 s = bind m k2 s.
Proof. intros H. unfold bind. destruct (m s) as [s1 [a|e]]; [apply H|done]. Qed.

(** A loop over two lists one after the other: the first, then the second. *)
Lemma for_each_app {A} (l1 l2 : list A) (body : A → M unit) s :
  for_each (l1 ++ l2) body s = bind (for_each l1 body) (λ _, for_each l2 body) s.
Proof.
  revert s. induction l1 as [|x l1 IH]; intros s; cbn [for_each app].
  - by rewrite bind_ret.
  - rewrite bind_assoc. apply bind_ext. intros _ s'. apply IH.
Qed.

(** The loop variable after a loop that completes, from a tame namespace: as
    before when the list is empty, and otherwise the last name of the list,
    as a string, unless that name is the loop variable's own. *)
Lemma loop_variable_last names (s s' : state) :
  tame (globals s) → for_each names iteration s = (s', Ok tt) →
  (names = [] → globals s' !! "sphinx_var" = globals s !! "sphinx_var") ∧
  (∀ n, last names = Some n → n ≠ "sphinx_var" →
        globals s' !! "sphinx_var" = Some (VStr n)).
Proof.
  intros Ht Hloop. split.
  - intros ->. by injection Hloop as <-.
  - intros n Hlast Hn. apply last_Some in Hlast as [l ->].
    rewrite for_each_app in Hloop. unfold bind in Hloop.
    destruct (for_each l iteration s) as [s1 [[]|e]] eqn:H1; [|done].
    destruct (loop_run _ _ _ _ Ht H1) as (_ & _ & _ & _ & Ht1 & _).
    cbn in Hloop. unfold bind in Hloop.
    destruct (iteration n s1) as [s2 [[]|e]] eqn:H2; [|done].
    injection Hloop as <-.
    destruct (iteration_run _ _ _ _ Ht1 H2) as (_ & _ & _ & _ & [->|[o ->]]).
    + by rewrite lookup_insert_eq.
    + rewrite lookup_insert_ne by done. by rewrite lookup_insert_eq.
Qed.

(** When [ROCmDocs] is the class, the loop runs over the class attribute. *)
Lemma export_loop_class (s : state) :
  globals s !! "ROCmDocs" = Some VClass →
  export_loop s = for_each SPHINX_VARS iteration s.
Proof.
  intros H. unfold export_loop. rewrite bind_load, H. cbn [sphinx_vars_of].
  by rewrite bind_ret.
Qed.

Lemma preamble_globals_class (i : Obj) g :
  preamble_globals i g !! "ROCmDocs" = Some VClass.
Proof. unfold preamble_globals. by lookups. Qed.

(** The module is lines 7 to 15, then the loop if they completed. *)
Lemma run_module_split (w : World) :
  run_module w =
  match preamble (init w) with
  | (s0, Ok _) => export_loop s0
  | (s0, Raise e) => (s0, Raise e)
  end.
Proof. unfold run_module, conf, bind. by destruct (preamble (init w)) as [s0 []]. Qed.

(** A complete execution: lines 7 to 15 returned, leaving the expected log
    and namespace, and the loop ran over [SPHINX_VARS] from there. *)
Lemma run_module_completed (w : World) (s : state) r :
  run_module w = (s, r) → (∀ e, r ≠ Raise e ∨ ¬ preamble_log (trace s) r) →
  ∃ s0 i a b c,
    preamble (init w) = (s0, Ok tt) ∧
    trace s0 = header i a b c ∧
    globals s0 = preamble_globals i ∅ ∧
    for_each SPHINX_VARS iteration s0 = (s, r).
Proof.
  intros Hrun Hnot. rewrite run_module_split in Hrun.
  destruct (preamble (init w)) as [s0 r0] eqn:Hpre.
  destruct (preamble_run _ _ _ Hpre) as (evs & Htr & Hlog & Hok). cbn in Htr.
  destruct r0 as [[]|e].
  - destruct (Hok eq_refl) as (i & a & b & c & -> & Hg).
    exists s0, i, a, b, c. split_and!; try done.
    rewrite export_loop_class in Hrun; [done|].
    rewrite Hg. apply preamble_globals_class.
  - injection Hrun as <- <-. exfalso.
    destruct (Hnot e) as [H|H]; [done|]. apply H. by rewrite Htr.
Qed.

(** The log of any execution has one of the shapes of [module_log]. *)
Lemma run_module_log (w : World) :
  module_log (trace (run_module w).1) (run_module w).2.
Proof.
  rewrite run_module_split.
  destruct (preamble (init w)) as [s0 r0] eqn:Hpre.
  destruct (preamble_run _ _ _ Hpre) as (evs & Htr & Hlog & Hok). cbn in Htr.
  destruct r0 as [[]|e].
  - destruct (Hok eq_refl) as (i & a & b & c & -> & Hg).
    rewrite export_loop_class by (rewrite Hg; apply preamble_globals_class).
    destruct (for_each SPHINX_VARS iteration s0) as [s r] eqn:Hloop.
    assert (Ht : tame (globals s0)) by (rewrite Hg; apply tame_preamble_globals).
    destruct (loop_run _ _ _ _ Ht Hloop) as (evs & Htr' & Hev & _).
    cbn. rewrite Htr', Htr. by constructor.
  - cbn. rewrite Htr. by constructor.
Qed.

End Execution.

(** ** The shape of the log: one instance, three methods, a fixed order *)

Section Shape.
Context {World Obj Exc : Type} {L : Library World Obj Exc}.
#[local] Abbreviation value := (value Obj).
#[local] Abbreviation event := (event Obj Exc).
#[local] Abbreviation state := (state World Obj Exc).

Lemma constructions_app (l1 l2 : list event) :
  constructions (l1 ++ l2) = constructions l1 ++ constructions l2.
Proof. apply List.filter_app. Qed.

Lemma elem_of_constructions (ev : event) tr :
  ev ∈ constructions tr ↔ ev ∈ tr ∧ is_construct ev = true.
Proof. unfold constructions. rewrite !list_elem_of_In. apply List.filter_In. Qed.

Lemma called_methods_app (l1 l2 : list event) :
  called_methods (l1 ++ l2) = called_methods l1 ++ called_methods l2.
Proof. apply omap_app. Qed.

Lemma loop_constructions (evs : list event) :
  Forall loop_event evs → constructions evs = [].
Proof.
  induction 1 as [|ev evs Hev _ IH]; [done|].
  unfold constructions in *. cbn. rewrite IH. by destruct ev.
Qed.


Lemma loop_no_invoke (evs : list event) m :
  Forall loop_event evs → Forall (λ ev, ¬ invokes m ev) evs.
Proof. intros H. eapply Forall_impl; [exact H|]. intros [] Hl Hi; cbn in *; done. Qed.

(** No entry of the second kind at all. *)
Lemma before_none (P Q : event → Prop) tr :
  Forall (λ ev, ¬ Q ev) tr → before P Q tr.
Proof.
  intros Hno. rewrite Forall_lookup in Hno.
  split; [intros j q Hj Hq|intros i j p q _ Hj _ Hq]; by destruct (Hno _ _ Hj).
Qed.

(** An entry of the first kind, returned, at position [k]; none of the second
    kind up to there, none of the first kind after. *)
Lemma before_at (P Q : event → Prop) tr k p :
  tr !! k = Some p → P p → returned p →
  Forall (λ ev, ¬ Q ev) (take (S k) tr) →
  Forall (λ ev, ¬ P ev) (drop (S k) tr) →
  before P Q tr.
Proof.
  intros Hk HP Hret HQ HP'.
  rewrite Forall_lookup in HQ. rewrite Forall_lookup in HP'.
  assert (Hlate : ∀ j q, tr !! j = Some q → Q q → k < j).
  { intros j q Hj Hq. destruct (decide (k < j)) as [|Hle]; [done|].
    destruct (HQ j q); [|done]. rewrite lookup_take_lt by lia. done. }
  assert (Hearly : ∀ i p', tr !! i = Some p' → P p' → i ≤ k).
  { intros i p' Hi Hp'. destruct (decide (i ≤ k)) as [|Hgt]; [done|].
    destruct (HP' (i - S k) p'); [|done].
    rewrite lookup_drop. replace (S k + (i - S k)) with i by lia. done. }
  split.
  - intros j q Hj Hq. exists k, p. split_and!; try done. by eapply Hlate.
  - intros i j p' q Hi Hj Hp' Hq.
    pose proof (Hlate _ _ Hj Hq). pose proof (Hearly _ _ Hi Hp'). lia.
Qed.

End Shape.

(** The cases of a log of the module, with its lists written out. *)
Ltac log_cases H :=
  let Hpl := fresh "Hpl" in
  let Hloop := fresh "Hloop" in
  inversion H as [? ? Hpl|? ? ? ? ? ? Hloop]; subst; clear H;
  [ inversion Hpl; subst; clear Hpl | ];
  unfold header, set_up, referenced, documented, built, imported, title in *;
  cbn [app] in *.

(** Membership in a list written out. *)
Ltac in_list H :=
  repeat (apply elem_of_cons in H as [H|H]; [try discriminate H|]);
  try (apply elem_of_nil in H; destruct H).

Section Order.
Context {World Obj Exc : Type} {L : Library World Obj Exc}.
#[local] Abbreviation value := (value Obj).
#[local] Abbreviation event := (event Obj Exc).
#[local] Abbreviation state := (state World Obj Exc).



(** C7: on every execution the three method calls are in one fixed order, and
    all before the loop reads any attribute.  [run_doxygen()] has returned
    before [enable_api_reference()] is called, that one has returned before
    [setup()] is called, and [setup()] has returned before any attribute is
    read. *)
Theorem calls_in_fixed_order (w : World) :
  before (invokes "run_doxygen") (invokes "enable_api_reference")
    (trace (run_module w).1) ∧
  before (invokes "enable_api_reference") (invokes "setup")
    (trace (run_module w).1) ∧
  before (invokes "setup") attribute_read (trace (run_module w).1).
Proof.
  pose proof (run_module_log w) as Hlog.
  destruct (run_module w) as [[g w' tr] r]. cbn [trace fst snd] in *.
  log_cases Hlog.
  (* In each shape of the log and for each pair of kinds: the second kind
     does not occur, or the first is at position 4, 5 or 6, none of the
     second up to there and none of the first after. *)
  all: split_and!;
    let none_such :=
      ltac:(repeat first
              [ apply Forall_nil_2
              | apply Forall_cons_2; [cbn; first [tauto | congruence | done]|]
              | by apply loop_no_invoke ]) in
    let at_position k :=
      solve [eapply (before_at _ _ _ k);
               [ reflexivity | cbn; reflexivity | reflexivity
               | cbn [take]; none_such | cbn [drop]; none_such ]] in
    first [ solve [apply before_none; none_such]
          | at_position 4 | at_position 5 | at_position 6 ].
Qed.

End Order.

(** ** The loop when it does not touch the names it reads *)

Section FreshLoop.
Context {World Obj Exc : Type} {L : Library World Obj Exc}.
#[local] Abbreviation value := (value Obj).
#[local] Abbreviation event := (event Obj Exc).
#[local] Abbreviation state := (state World Obj Exc).

(** With [getattr] and [globals] the builtins and [docs_core] bound to [d],
    one turn of the loop reads attribute [n] of [d] and binds it. *)
Lemma iteration_fresh n (s : state) d :
  globals s !! "getattr" = None →
  globals s !! "globals" = None →
  globals s !! "docs_core" = Some d →
  iteration n s = export_from d [n] s.
Proof.
  destruct s as [g w tr]. cbn [globals]. intros Hga Hgl Hd.
  unfold iteration. rewrite bind_store. unfold line18.
  repeat exec_step ltac:(fun v H =>
    first [congruence | assert (v = d) by congruence; subst v]).
  all: try congruence.
  all: cbn [export_from globals world trace].
  all: match goal with H : get_attribute _ _ _ = _ |- _ => rewrite H end.
  all: cbn [fst snd]; by rewrite <- !app_assoc.
Qed.

(** The loop as [export_from], as long as no name of the list is [getattr],
    [globals] or [docs_core]. *)
Lemma loop_fresh names (s : state) d :
  globals s !! "getattr" = None →
  globals s !! "globals" = None →
  globals s !! "docs_core" = Some d →
  "getattr" ∉ names → "globals" ∉ names → "docs_core" ∉ names →
  for_each names iteration s = export_from d names s.
Proof.
  revert s. induction names as [|n names IH]; intros s Hga Hgl Hd Na Nl Nd; [done|].
  apply not_elem_of_cons in Na as [? ?].
  apply not_elem_of_cons in Nl as [? ?].
  apply not_elem_of_cons in Nd as [? ?].
  cbn [for_each]. unfold bind. rewrite (iteration_fresh n s d) by done.
  cbn [export_from].
  destruct (get_attribute d n (world s)) as [w' [a|e]]; cbn [fst snd]; [|done].
  apply IH; cbn [globals]; try done; by lookups.
Qed.

(** [export_from] leaves alone every name that is neither in the list nor
    the loop variable. *)
Lemma export_from_frame d names (s s' : state) r k :
  export_from d names s = (s', r) →
  k ∉ names → k ≠ "sphinx_var" → globals s' !! k = globals s !! k.
Proof.
  revert s. induction names as [|n names IH]; intros s Hrun Hk Hsv; cbn in Hrun.
  - by injection Hrun as <- <-.
  - apply not_elem_of_cons in Hk as [? ?].
    destruct (get_attribute d n (world s)) as [w' [a|e]]; cbn in Hrun.
    + rewrite (IH _ Hrun) by done. cbn. by rewrite !lookup_insert_ne.
    + injection Hrun as <- <-. cbn. by rewrite lookup_insert_ne.
Qed.

Lemma reads_of_app n (tr1 tr2 : list event) :
  reads_of n (tr1 ++ tr2) = reads_of n tr1 ++ reads_of n tr2.
Proof. apply omap_app. Qed.

(** ... and it reads no attribute outside the list. *)
Lemma export_from_reads d names (s s' : state) r n :
  export_from d names s = (s', r) →
  n ∉ names → reads_of n (trace s') = reads_of n (trace s).
Proof.
  revert s. induction names as [|m names IH]; intros s Hrun Hn; cbn in Hrun.
  - by injection Hrun as <- <-.
  - apply not_elem_of_cons in Hn as [? ?].
    destruct (get_attribute d m (world s)) as [w' [a|e]]; cbn in Hrun.
    + rewrite (IH _ Hrun) by done. cbn [trace]. rewrite reads_of_app. cbn.
      rewrite decide_False by done. by rewrite app_nil_r.
    + injection Hrun as <- <-. cbn [trace]. rewrite reads_of_app. cbn.
      rewrite decide_False by done. by rewrite app_nil_r.
Qed.

(** After a complete [export_from] over a list without the loop variable,
    every name of the list is bound to what its last read on [d] returned. *)
Lemma export_from_exports d names (s s' : state) :
  export_from d names s = (s', Ok tt) → "sphinx_var" ∉ names →
  ∀ n, n ∈ names →
    ∃ a, globals s' !! n = Some (VObj a) ∧ last_read n (trace s') = Some (d, Ok a).
Proof.
  revert s. induction names as [|m names IH]; intros s Hrun Hsv n Hn.
  - by apply elem_of_nil in Hn.
  - apply not_elem_of_cons in Hsv as [? ?]. cbn in Hrun.
    destruct (get_attribute d m (world s)) as [w' [a|e]]; cbn in Hrun; [|done].
    destruct (decide (n ∈ names)) as [Hin|Hout]; [by eapply IH|].
    apply elem_of_cons in Hn as [->|]; [|done].
    exists a. split.
    + rewrite (export_from_frame _ _ _ _ _ _ Hrun) by done. cbn.
      by rewrite lookup_insert_eq.
    + unfold last_read. rewrite (export_from_reads _ _ _ _ _ _ Hrun) by done.
      cbn [trace]. rewrite reads_of_app. cbn. rewrite decide_True by done.
      by rewrite last_snoc.
Qed.

Lemma exported_cons a n names (g : gmap string value) :
  exported a (n :: names) g =
  exported a names (<[n := VObj (a n)]> (<["sphinx_var" := VStr n]> g)).
Proof. reflexivity. Qed.

(** A lookup in the namespace the loop leaves: what the loop wrote last under
    that name if it wrote there, what was there before otherwise. *)
Lemma exported_lookup a names (g : gmap string value) k :
  exported a names g !! k =
  match exported a names ∅ !! k with
  | Some v => Some v
  | None => g !! k
  end.
Proof.
  revert g. induction names as [|n names IH]; intros g.
  - unfold exported. cbn [fold_left]. by rewrite lookup_empty.
  - rewrite !exported_cons. rewrite (IH (<[n:=_]> (<[_:=_]> g))).
    rewrite (IH (<[n:=_]> (<[_:=_]> ∅))).
    destruct (exported a names ∅ !! k); [done|].
    destruct (decide (n = k)) as [->|]; [by rewrite !lookup_insert_eq|].
    rewrite !(lookup_insert_ne _ n k) by done.
    destruct (decide ("sphinx_var" = k)) as [<-|]; [by rewrite !lookup_insert_eq|].
    rewrite !lookup_insert_ne by done. by rewrite lookup_empty.
Qed.

Lemma exported_idempotent a names (g : gmap string value) :
  exported a names (exported a names g) = exported a names g.
Proof.
  apply map_eq. intros k. rewrite (exported_lookup a names (exported a names g)).
  rewrite (exported_lookup a names g). by destruct (exported a names ∅ !! k).
Qed.

Lemma exported_frame a names (g : gmap string value) k :
  k ∉ names → k ≠ "sphinx_var" → exported a names g !! k = g !! k.
Proof.
  revert g. induction names as [|n names IH]; intros g Hk Hsv; [done|].
  apply not_elem_of_cons in Hk as [? ?].
  rewrite exported_cons, IH by done. by rewrite !lookup_insert_ne.
Qed.

(** Under a name of the list other than the loop variable, the namespace
    the loop leaves holds the value of that attribute. *)
Lemma exported_value a names (g : gmap string value) n :
  n ∈ names → n ≠ "sphinx_var" → exported a names g !! n = Some (VObj (a n)).
Proof.
  revert g. induction names as [|m names IH]; intros g Hn Hsv.
  - by apply elem_of_nil in Hn.
  - rewrite exported_cons.
    destruct (decide (n ∈ names)) as [Hin|Hout]; [by apply IH|].
    apply elem_of_cons in Hn as [->|]; [|done].
    rewrite exported_frame by done. by rewrite lookup_insert_eq.
Qed.

(** With reads that always return [a n], [export_from] completes and leaves
    the namespace [exported]. *)
Lemma export_from_deterministic d a names (s : state) :
  (∀ n w, n ∈ names → ∃ w', get_attribute d n w = (w', Ok (a n))) →
  ∃ s', export_from d names s = (s', Ok tt) ∧
        globals s' = exported a names (globals s).
Proof.
  revert s. induction names as [|n names IH]; intros s Hdet.
  - by exists s.
  - cbn [export_from]. destruct (Hdet n (world s)) as [w' ->]; [by left|].
    cbn [fst snd]. rewrite exported_cons.
    match goal with
    | |- ∃ s', export_from d names ?s1 = _ ∧ _ =>
        destruct (IH s1) as (s' & Hs' & Hg')
    end.
    + intros m w Hm. apply Hdet. by right.
    + exists s'. by rewrite Hs', Hg'.
Qed.
End FreshLoop.

(** ** What the loop exports, what it leaves alone, and running it twice *)

Section Exports.
Context {World Obj Exc : Type} {L : Library World Obj Exc}.
#[local] Abbreviation value := (value Obj).
#[local] Abbreviation event := (event Obj Exc).
#[local] Abbreviation state := (state World Obj Exc).

(** After lines 7 to 15: the log, the namespace, and what the names the loop
    reads denote there. *)
Lemma preamble_completed (w : World) (s0 : state) :
  preamble (init w) = (s0, Ok tt) →
  ∃ i a b c,
    trace s0 = header i a b c ∧
    globals s0 = preamble_globals i ∅ ∧
    tame (globals s0) ∧
    globals s0 !! "ROCmDocs" = Some VClass ∧
    globals s0 !! "docs_core" = Some (VObj i) ∧
    globals s0 !! "external_projects_current_project" = Some (VStr "hipcub") ∧
    globals s0 !! "getattr" = None ∧
    globals s0 !! "globals" = None ∧
    globals s0 !! "sphinx_var" = None.
Proof.
  intros Hpre.
  destruct (preamble_run _ _ _ Hpre) as (evs & Htr & _ & Hok).
  destruct (Hok eq_refl) as (i & a & b & c & -> & Hg).
  exists i, a, b, c. rewrite Hg. split_and!; try done.
  apply tame_preamble_globals.
Qed.

(** C8, as amended: the loop binds the names of [SPHINX_VARS] and its own
    loop variable [sphinx_var], and changes no other binding, however it
    ends.  When the loop completes, [sphinx_var] is unbound if [SPHINX_VARS]
    is empty, and otherwise bound to the last name of [SPHINX_VARS], as a
    string, unless that name is [sphinx_var] itself.  And when
    ["external_projects_current_project"] is not in [SPHINX_VARS] that global
    is still ["hipcub"] after the loop, and when ["docs_core"] is not in
    [SPHINX_VARS], [docs_core] is still the instance that the one constructor
    call returned. *)
Theorem loop_touches_sphinx_vars_and_loop_variable (w : World) (s0 s : state) r :
  preamble (init w) = (s0, Ok tt) → export_loop s0 = (s, r) →
  (∃ evs, trace s = trace s0 ++ evs ∧
          Forall (λ k, k = "sphinx_var" ∨ k ∈ SPHINX_VARS) (bound_names evs)) ∧
  (∀ n, n ∉ SPHINX_VARS → n ≠ "sphinx_var" → globals s !! n = globals s0 !! n) ∧
  (r = Ok tt → SPHINX_VARS = [] → globals s !! "sphinx_var" = None) ∧
  (r = Ok tt → ∀ n, last SPHINX_VARS = Some n → n ≠ "sphinx_var" →
     globals s !! "sphinx_var" = Some (VStr n)) ∧
  ("external_projects_current_project" ∉ SPHINX_VARS →
     globals s !! "external_projects_current_project" = Some (VStr "hipcub")) ∧
  ("docs_core" ∉ SPHINX_VARS →
     ∃ i, constructions (trace s) = [EConstruct [title] (Ok i)] ∧
          globals s !! "docs_core" = Some (VObj i)).
Proof.
  intros Hpre Hloop.
  destruct (preamble_completed _ _ Hpre)
    as (i & a & b & c & Htr0 & Hg0 & Ht0 & Hcls & Hdc & Hep & _ & _ & Hsv).
  rewrite export_loop_class in Hloop by done.
  destruct (loop_run _ _ _ _ Ht0 Hloop) as (evs & Htr & Hev & Hb & _ & Hfr).
  split_and!.
  - by exists evs.
  - done.
  - intros -> Hnil.
    destruct (loop_variable_last _ _ _ Ht0 Hloop) as [Hempty _].
    by rewrite Hempty.
  - intros -> n Hlast Hn.
    destruct (loop_variable_last _ _ _ Ht0 Hloop) as [_ Hlast'].
    by apply Hlast'.
  - intros Hn. by rewrite Hfr.
  - intros Hn. exists i. split; [|by rewrite Hfr].
    rewrite Htr, Htr0, constructions_app, (loop_constructions evs) by done.
    done.
Qed.

(** C1, as amended: when [SPHINX_VARS] contains none of the four names line
    17 and 18 read, [sphinx_var], [docs_core], [getattr] and [globals], a
    complete execution leaves every name of [SPHINX_VARS] bound in the module
    namespace, to the value that the last [getattr] of that name on the one
    constructed instance returned; no name is skipped. *)
Theorem exports_every_fresh_name (w : World) :
  "sphinx_var" ∉ SPHINX_VARS → "docs_core" ∉ SPHINX_VARS →
  "getattr" ∉ SPHINX_VARS → "globals" ∉ SPHINX_VARS →
  exports_every_name w.
Proof.
  intros Nsv Ndc Nga Ngl s Hrun.
  destruct (run_module_completed _ _ _ Hrun) as (s0 & i & a & b & c & Hpre & Htr0 & Hg0 & Hloop).
  { intros e. by left. }
  destruct (preamble_completed _ _ Hpre)
    as (i' & a' & b' & c' & Htr0' & Hg0' & Ht0 & Hcls & Hdc & Hep & Hga & Hgl & _).
  assert (i' = i) as -> by (rewrite Htr0 in Htr0'; by injection Htr0').
  destruct (loop_run _ _ _ _ Ht0 Hloop) as (evs & Htr & Hev & _).
  rewrite (loop_fresh _ _ (VObj i)) in Hloop by done.
  exists i. split.
  - rewrite Htr, Htr0, constructions_app, (loop_constructions evs) by done.
    done.
  - by eapply export_from_exports.
Qed.

(** C9, as amended: when [SPHINX_VARS] contains none of [ROCmDocs],
    [getattr] and [globals], the loop is idempotent: with [docs_core] fixed
    (not in [SPHINX_VARS]) and reads of its [SPHINX_VARS] attributes
    deterministic, the loop completes, a second run right after it in the
    same module execution completes too, and the namespace after the second
    run is the namespace after the first.  The exported values depend only
    on the attribute values of [docs_core] at read time: after the loop every
    name of [SPHINX_VARS] other than [sphinx_var] is bound to the value the
    read of that attribute on [docs_core] returns. *)
Theorem loop_idempotent_when_fresh (w : World) :
  "ROCmDocs" ∉ SPHINX_VARS → "getattr" ∉ SPHINX_VARS → "globals" ∉ SPHINX_VARS →
  loop_idempotent w ∧
  ∀ (s0 : state) d a,
    preamble (init w) = (s0, Ok tt) →
    globals s0 !! "docs_core" = Some d →
    "docs_core" ∉ SPHINX_VARS →
    deterministic_reads d a →
    ∃ s1 s2,
      export_loop s0 = (s1, Ok tt) ∧ export_loop s1 = (s2, Ok tt) ∧
      globals s2 = globals s1 ∧
      ∀ n, n ∈ SPHINX_VARS → n ≠ "sphinx_var" →
           globals s1 !! n = Some (VObj (a n)).
Proof.
  intros Ncl Nga Ngl.
  assert (Hboth : ∀ (s0 : state) d a,
    preamble (init w) = (s0, Ok tt) →
    globals s0 !! "docs_core" = Some d →
    "docs_core" ∉ SPHINX_VARS →
    deterministic_reads d a →
    ∃ s1 s2, export_loop s0 = (s1, Ok tt) ∧ export_loop s1 = (s2, Ok tt) ∧
             globals s2 = globals s1 ∧
             ∀ n, n ∈ SPHINX_VARS → n ≠ "sphinx_var" →
                  globals s1 !! n = Some (VObj (a n))).
  { intros s0 d a Hpre Hd Ndc Hdet.
    destruct (preamble_completed _ _ Hpre)
      as (i & _ & _ & _ & _ & _ & _ & Hcls & _ & _ & Hga & Hgl & _).
    destruct (export_from_deterministic d a SPHINX_VARS s0) as (s1 & Hs1 & Hg1).
    { intros n w' Hn. by apply Hdet. }
    assert (Hsame : ∀ k, k ∉ SPHINX_VARS → k ≠ "sphinx_var" →
                         globals s1 !! k = globals s0 !! k).
    { intros k Hk Hsv. rewrite Hg1. by apply exported_frame. }
    destruct (export_from_deterministic d a SPHINX_VARS s1) as (s2 & Hs2 & Hg2).
    { intros n w' Hn. by apply Hdet. }
    exists s1, s2. split_and!.
    - rewrite export_loop_class by done. by rewrite (loop_fresh _ _ d).
    - rewrite export_loop_class by (by rewrite Hsame).
      rewrite (loop_fresh _ _ d); rewrite ?Hsame; done.
    - rewrite Hg2, Hg1. apply exported_idempotent.
    - intros n Hn Hsv. rewrite Hg1. by apply exported_value. }
  split.
  - intros s0 s1 s2 d a r Hpre Hd Ndc Hdet H1 H2.
    destruct (Hboth s0 d a Hpre Hd Ndc Hdet) as (s1' & s2' & H1' & H2' & Heq & _).
    rewrite H1 in H1'. injection H1' as <-.
    rewrite H2 in H2'. by injection H2' as <- _.
  - exact Hboth.
Qed.

End Exports.

(** ** Runs against the small library *)

(** A name is not in the [SPHINX_VARS] of a library written out. *)
Ltac not_listed :=
  let H := fresh "H" in
  intros H; vm_compute in H; in_list H.

(** C1 fails as stated: with [SPHINX_VARS = ["sphinx_var"; "html_title"]] the
    module completes, and the name [sphinx_var] of the list is bound to the
    string ["html_title"], the last value of the loop variable, not to the
    attribute [docs_core.sphinx_var]. *)
Lemma exports_every_name_fails :
  ¬ exports_every_name (L:=names_loop_variable) [].
Proof.
  intros H.
  destruct (H (run_module (L:=names_loop_variable) []).1) as (i & _ & Hn).
  { vm_compute. reflexivity. }
  destruct (Hn "sphinx_var") as (a & Hg & _).
  { by left. }
  vm_compute in Hg. discriminate Hg.
Qed.

(** The amended C1 at a library whose names are fresh: the run completes and
    every name is exported. *)
Lemma exports_every_fresh_name_witness :
  (run_module (L:=all_returns) []).2 = Ok tt ∧
  exports_every_name (L:=all_returns) [].
Proof.
  split; [vm_compute; reflexivity|].
  apply (exports_every_fresh_name (L:=all_returns) []); not_listed.
Defined.



(** C4 at the library in which [setup()] raises: the execution ends with that
    exception, and the namespace holds [ROCmDocs] and [docs_core] only. *)
Lemma failure_propagates_witness :
  (run_module (L:=setup_raises) []).2 = Raise (Raised "failed in setup") ∧
  globals (run_module (L:=setup_raises) []).1 =
    rebind (referenced (Exc:=string) "docs" "None" "None") ∅.
Proof.
  destruct (failure_propagates (L:=setup_raises) []
              (run_module (L:=setup_raises) []).1
              (run_module (L:=setup_raises) []).2
              ltac:(vm_compute; reflexivity)
              (referenced (Exc:=string) "docs" "None" "None")
              (EInvoke (VObj "docs") "setup" [] (Raise "failed in setup"))
              [] "failed in setup"
              ltac:(vm_compute; reflexivity)
              ltac:(reflexivity)) as (_ & Hr & Hg).
  split; assumption.
Defined.

(** C8 fails as stated: with the four Sphinx names for [SPHINX_VARS], the loop
    binds [sphinx_var], which is not in [SPHINX_VARS] and was not bound
    before the loop. *)
Lemma loop_touches_only_sphinx_vars_fails :
  ¬ loop_touches_only_sphinx_vars (L:=all_returns) [].
Proof.
  intros H.
  destruct (H (preamble (L:=all_returns) (init [])).1
              (run_module (L:=all_returns) []).1) as [Hframe _].
  { vm_compute. reflexivity. }
  { vm_compute. reflexivity. }
  specialize (Hframe "sphinx_var" ltac:(not_listed)).
  vm_compute in Hframe. discriminate Hframe.
Qed.

(** The amended C8 at the same library: after the loop [sphinx_var] is the
    last name, and the string of line 15 and the instance are as before. *)
Lemma loop_touches_sphinx_vars_and_loop_variable_witness :
  globals (run_module (L:=all_returns) []).1 !! "sphinx_var" =
    Some (VStr "html_theme_options") ∧
  globals (run_module (L:=all_returns) []).1 !! "external_projects_current_project"
    = Some (VStr "hipcub") ∧
  ∃ i, constructions (trace (run_module (L:=all_returns) []).1) =
         [EConstruct [title] (Ok i)] ∧
       globals (run_module (L:=all_returns) []).1 !! "docs_core" = Some (VObj i).
Proof.
  destruct (loop_touches_sphinx_vars_and_loop_variable (L:=all_returns) []
              (preamble (L:=all_returns) (init [])).1
              (run_module (L:=all_returns) []).1 (Ok tt)
              ltac:(vm_compute; reflexivity)
              ltac:(vm_compute; reflexivity)) as (_ & _ & _ & Hl & Hp & Hd).
  split_and!.
  - apply (Hl eq_refl "html_theme_options" eq_refl). discriminate.
  - apply Hp. not_listed.
  - apply Hd. not_listed.
Defined.

(** C9 fails as stated: with [SPHINX_VARS = ["getattr"]], [docs_core] is fixed
    and its reads are deterministic, the first run of the loop binds the name
    [getattr] to the attribute value, and the second run calls that value
    instead of the builtin and binds [getattr] to what the call returns. *)
Lemma loop_idempotent_fails :
  ¬ loop_idempotent (L:=names_getattr) [].
Proof.
  intros H.
  specialize (H (preamble (L:=names_getattr) (init [])).1
                (run_module (L:=names_getattr) []).1
                (export_loop (L:=names_getattr) (run_module (L:=names_getattr) []).1).1
                (VObj "docs") (λ n, "value of " +:+ n) (Ok tt)).
  assert (Heq : globals
            (export_loop (L:=names_getattr) (run_module (L:=names_getattr) []).1).1
          = globals (run_module (L:=names_getattr) []).1).
  { apply H.
    - vm_compute. reflexivity.
    - vm_compute. reflexivity.
    - not_listed.
    - intros n w Hn. exists w.
      cbv [SPHINX_VARS names_getattr toy] in Hn. in_list Hn; subst n; reflexivity.
    - vm_compute. reflexivity.
    - vm_compute. reflexivity. }
  apply (f_equal (λ g, g !! "getattr")) in Heq.
  vm_compute in Heq. discriminate Heq.
Qed.

(** The amended C9 at the library in which every call returns: both runs of
    the loop complete, the second leaves the namespace of the first, and each
    name is bound to the value of its attribute. *)
Lemma loop_idempotent_when_fresh_witness :
  ∃ s1 s2,
    export_loop (L:=all_returns) (preamble (L:=all_returns) (init [])).1 = (s1, Ok tt) ∧
    export_loop (L:=all_returns) s1 = (s2, Ok tt) ∧
    globals s2 = globals s1 ∧
    ∀ n, n ∈ sphinx_names → n ≠ "sphinx_var" →
         globals s1 !! n = Some (VObj ("value of " +:+ n)).
Proof.
  destruct (loop_idempotent_when_fresh (L:=all_returns) []
              ltac:(not_listed) ltac:(not_listed) ltac:(not_listed))
    as [_ Hruns].
  assert (Hdet : deterministic_reads (L:=all_returns) (VObj "docs")
                   (λ n, "value of " +:+ n)).
  { intros n w Hn. exists w. cbv [SPHINX_VARS all_returns toy sphinx_names] in Hn.
    in_list Hn; subst n; reflexivity. }
  exact (Hruns (preamble (L:=all_returns) (init [])).1 (VObj "docs")
           (λ n, "value of " +:+ n)
           ltac:(vm_compute; reflexivity)
           ltac:(vm_compute; reflexivity)
           ltac:(not_listed) Hdet).
Defined.

(** ** The runs themselves *)

(** The log of a complete run: lines 7 to 15, then three entries per name. *)
Example all_returns_log :
  run_module (L:=all_returns) [] =
  (State
     (list_to_map
        [("ROCmDocs", VClass); ("docs_core", VObj "docs");
         ("external_projects_current_project", VStr "hipcub");
         ("sphinx_var", VStr "html_theme_options");
         ("extensions", VObj "value of extensions");
         ("html_title", VObj "value of html_title");
         ("html_theme", VObj "value of html_theme");
         ("html_theme_options", VObj "value of html_theme_options")])
     ["import"; "new"; "run_doxygen"; "enable_api_reference"; "setup"]
     (header "docs" "None" "None" "None" ++
      [EBind "sphinx_var" (VStr "extensions");
       EGetattr (VObj "docs") "extensions" (Ok "value of extensions");
       EBind "extensions" (VObj "value of extensions");
       EBind "sphinx_var" (VStr "html_title");
       EGetattr (VObj "docs") "html_title" (Ok "value of html_title");
       EBind "html_title" (VObj "value of html_title");
       EBind "sphinx_var" (VStr "html_theme");
       EGetattr (VObj "docs") "html_theme" (Ok "value of html_theme");
       EBind "html_theme" (VObj "value of html_theme");
       EBind "sphinx_var" (VStr "html_theme_options");
       EGetattr (VObj "docs") "html_theme_options" (Ok "value of html_theme_options");
       EBind "html_theme_options" (VObj "value of html_theme_options")]),
   Ok tt).
Proof. vm_compute. reflexivity. Qed.

(** When [setup()] raises, the run stops there: line 15 and the loop bind
    nothing. *)
Example setup_raises_log :
  run_module (L:=setup_raises) [] =
  (State
     (list_to_map [("ROCmDocs", VClass); ("docs_core", VObj "docs")])
     ["import"; "new"; "run_doxygen"; "enable_api_reference"; "setup"]
     (referenced "docs" "None" "None" ++
      [EInvoke (VObj "docs") "setup" [] (Raise "failed in setup")]),
   Raise (Raised "failed in setup")).
Proof. vm_compute. reflexivity. Qed.

(** When [SPHINX_VARS] names the loop variable: the first turn binds
    [sphinx_var] to the attribute, the second turn rebinds it to the next
    name. *)
Example names_loop_variable_log :
  trace (run_module (L:=names_loop_variable) []).1 =
    header "docs" "None" "None" "None" ++
    [EBind "sphinx_var" (VStr "sphinx_var");
     EGetattr (VObj "docs") "sphinx_var" (Ok "value of sphinx_var");
     EBind "sphinx_var" (VObj "value of sphinx_var");
     EBind "sphinx_var" (VStr "html_title");
     EGetattr (VObj "docs") "html_title" (Ok "value of html_title");
     EBind "html_title" (VObj "value of html_title")] ∧
  globals (run_module (L:=names_loop_variable) []).1 !! "sphinx_var" =
    Some (VStr "html_title").
Proof. split; vm_compute; reflexivity. Qed.

(** When [SPHINX_VARS] names [getattr]: the first run of the loop reads the
    attribute with the builtin, the second calls the value the first bound. *)
Example names_getattr_log :
  trace (export_loop (L:=names_getattr) (run_module (L:=names_getattr) []).1).1 =
    header "docs" "None" "None" "None" ++
    [EBind "sphinx_var" (VStr "getattr");
     EGetattr (VObj "docs") "getattr" (Ok "value of getattr");
     EBind "getattr" (VObj "value of getattr");
     EBind "sphinx_var" (VStr "getattr");
     ECall "value of getattr" [VObj "docs"; VStr "getattr"]
       (Ok "result of value of getattr");
     EBind "getattr" (VObj "result of value of getattr")].
Proof. vm_compute. reflexivity. Qed.

(** ** Further properties of the module body *)

Section Safety.
Context {World Obj Exc : Type} {L : Library World Obj Exc}.
#[local] Abbreviation value := (value Obj).
#[local] Abbreviation event := (event Obj Exc).
#[local] Abbreviation state := (state World Obj Exc).

Lemma docs_core_bound_insert (g : gmap string value) k v :
  docs_core_bound g → docs_core_bound (<[k:=v]> g).
Proof.
  intros Hd. unfold docs_core_bound in *.
  destruct (decide (k = "docs_core")) as [->|].
  - rewrite lookup_insert_eq. by eexists.
  - by rewrite lookup_insert_ne.
Qed.

(** One turn of the loop, from any namespace that binds [docs_core], whatever
    it binds the other names to: every name line 18 reads is found, and
    [docs_core] stays bound. *)
Lemma iteration_finds_names n (s s' : state) r :
  docs_core_bound (globals s) → iteration n s = (s', r) →
  docs_core_bound (globals s') ∧ ∀ m, r ≠ Raise (NameError m).
Proof.
  intros Hst. destruct s as [g w tr]. cbn [globals] in Hst.
  pose proof Hst as [d Hd].
  unfold iteration; rewrite bind_store; unfold line18.
  repeat first
    [ rewrite Hd; cbv beta iota
    | exec_step ltac:(fun v H => destruct v as [?|?| |[]|]) ].
  all: settle.
  all: split; [by repeat apply docs_core_bound_insert|by intros m].
Qed.

Lemma loop_finds_names names (s s' : state) r :
  docs_core_bound (globals s) → for_each names iteration s = (s', r) →
  ∀ m, r ≠ Raise (NameError m).
Proof.
  revert s. induction names as [|n names IH]; intros s Hst Hrun; cbn in Hrun.
  - by injection Hrun as <- <-.
  - unfold bind in Hrun. destruct (iteration n s) as [s1 [[]|e]] eqn:Hn.
    + destruct (iteration_finds_names _ _ _ _ Hst Hn) as [Hst1 _]. by eapply IH.
    + injection Hrun as <- <-.
      by destruct (iteration_finds_names _ _ _ _ Hst Hn) as [_ ?].
Qed.

(** X1: the module body never reads an unbound name.  Whatever [SPHINX_VARS]
    holds, also when it names what the body itself reads and the loop rebinds
    it, no execution ends with a [NameError]: [ROCmDocs], [docs_core] and
    [sphinx_var] are bound before each read of them and never unbound, and
    [getattr] and [globals] are builtins where the namespace does not bind
    them. *)
Theorem every_name_read_is_bound (w : World) (n : string) :
  (run_module w).2 ≠ Raise (NameError n).
Proof.
  rewrite run_module_split.
  destruct (preamble (init w)) as [s0 r0] eqn:Hpre.
  destruct (preamble_run _ _ _ Hpre) as (evs & Htr & Hlog & Hok).
  destruct r0 as [[]|e].
  - destruct (Hok eq_refl) as (i & a & b & c & -> & Hg).
    rewrite export_loop_class by (rewrite Hg; apply preamble_globals_class).
    destruct (for_each SPHINX_VARS iteration s0) as [s r] eqn:Hloop.
    eapply loop_finds_names; [|exact Hloop]. rewrite Hg. by eexists.
  - cbn. inversion Hlog; subst; discriminate.
Qed.
End Safety.

Section Reads.
Context {World Obj Exc : Type} {L : Library World Obj Exc}.
#[local] Abbreviation value := (value Obj).
#[local] Abbreviation event := (event Obj Exc).
#[local] Abbreviation state := (state World Obj Exc).

Lemma read_names_app (tr1 tr2 : list event) :
  read_names (tr1 ++ tr2) = read_names tr1 ++ read_names tr2.
Proof. apply omap_app. Qed.

Lemma elem_of_read_names (tr : list event) o n res :
  EGetattr o n res ∈ tr → n ∈ read_names tr.
Proof. intros H. apply list_elem_of_omap. by exists (EGetattr o n res). Qed.

Lemma preamble_log_reads (evs : list event) r :
  preamble_log evs r → read_names evs = [].
Proof. by destruct 1. Qed.

(** What [export_from] adds to the log: reads of the names of the list, in
    order and all on [d], up to the first that raises. *)
Lemma export_from_log d names (s s' : state) r :
  export_from d names s = (s', r) →
  ∃ evs, trace s' = trace s ++ evs ∧
    read_names evs `prefix_of` names ∧
    (r = Ok tt → read_names evs = names) ∧
    (∀ o n res, EGetattr o n res ∈ evs → o = d) ∧
    Forall loop_event evs.
Proof.
  revert s. induction names as [|n names IH]; intros s Hrun; cbn in Hrun.
  - injection Hrun as <- <-. exists []. rewrite app_nil_r.
    split_and!; try done. intros o n res Hin. by apply elem_of_nil in Hin.
  - destruct (get_attribute d n (world s)) as [w' [a|e]]; cbn in Hrun.
    + destruct (IH _ Hrun) as (evs & Htr & Hpre & Hall & Hon & Hloop).
      cbn in Htr. rewrite <- app_assoc in Htr. eexists. split; [exact Htr|].
      rewrite read_names_app. cbn. split_and!.
      * by apply prefix_cons.
      * intros Hr. by rewrite Hall.
      * intros o m res Hin. in_list Hin; [by simplify_eq|by eapply Hon].
      * by repeat (apply Forall_cons_2; [exact I|]).
    + injection Hrun as <- <-. eexists. split; [done|]. cbn. split_and!.
      * apply prefix_cons, prefix_nil.
      * done.
      * intros o m res Hin. in_list Hin. by simplify_eq.
      * by repeat constructor.
Qed.

(** X2: when [SPHINX_VARS] contains none of [getattr], [globals] and
    [docs_core], the loop reads the attributes in the order of the list, once
    per occurrence (a name listed twice is read twice), every read on the
    constructed instance.  The names read are an initial part of
    [SPHINX_VARS] in any execution, stopping at the first read that raises,
    and the whole list in an execution that completes. *)
Theorem reads_follow_sphinx_vars (w : World) (s : state) r :
  "getattr" ∉ SPHINX_VARS → "globals" ∉ SPHINX_VARS → "docs_core" ∉ SPHINX_VARS →
  run_module w = (s, r) →
  read_names (trace s) `prefix_of` SPHINX_VARS ∧
  (r = Ok tt → read_names (trace s) = SPHINX_VARS) ∧
  (∀ o n res, EGetattr o n res ∈ trace s →
     ∃ i, o = VObj i ∧ constructions (trace s) = [EConstruct [title] (Ok i)]).
Proof.
  intros Nga Ngl Ndc Hrun. rewrite run_module_split in Hrun.
  destruct (preamble (init w)) as [s0 r0] eqn:Hpre.
  destruct (preamble_run _ _ _ Hpre) as (evs & Htr & Hlog & Hok). cbn in Htr.
  destruct r0 as [[]|e].
  - destruct (Hok eq_refl) as (i & a & b & c & -> & Hg).
    rewrite export_loop_class in Hrun by (rewrite Hg; apply preamble_globals_class).
    rewrite (loop_fresh _ _ (VObj i)) in Hrun by (by rewrite ?Hg).
    destruct (export_from_log _ _ _ _ _ Hrun) as (evs & Htr' & Hpre' & Hall & Hon & Hloop).
    rewrite Htr', Htr, read_names_app. cbn [app]. split_and!; try done.
    intros o n res Hin. apply elem_of_app in Hin as [Hin|Hin].
    + apply elem_of_read_names in Hin. by apply elem_of_nil in Hin.
    + exists i. split; [by eapply Hon|].
      by rewrite constructions_app, (loop_constructions evs).
  - injection Hrun as <- <-. rewrite Htr.
    pose proof (preamble_log_reads _ _ Hlog) as Hnil. rewrite Hnil.
    split_and!; [apply prefix_nil|done|].
    intros o n res Hin. apply elem_of_read_names in Hin.
    rewrite Hnil in Hin. by apply elem_of_nil in Hin.
Qed.

(** X3: the loop variable outlives the loop.  After a complete execution
    [sphinx_var] is unbound when [SPHINX_VARS] is empty (the loop body never
    ran), and otherwise bound to the last name of the list, as a string,
    unless that name is [sphinx_var] itself. *)
Theorem loop_variable_after_run (w : World) (s : state) :
  run_module w = (s, Ok tt) →
  (SPHINX_VARS = [] → globals s !! "sphinx_var" = None) ∧
  (∀ n, last SPHINX_VARS = Some n → n ≠ "sphinx_var" →
        globals s !! "sphinx_var" = Some (VStr n)).
Proof.
  intros Hrun.
  destruct (run_module_completed _ _ _ Hrun)
    as (s0 & i & a & b & c & Hpre & Htr0 & Hg0 & Hloop).
  { intros e. by left. }
  assert (Ht0 : tame (globals s0)) by (rewrite Hg0; apply tame_preamble_globals).
  split.
  - intros Hnil. rewrite Hnil in Hloop. injection Hloop as <-. by rewrite Hg0.
  - intros n Hlast Hn. apply last_Some in Hlast as [l Hl]. rewrite Hl in Hloop.
    rewrite for_each_app in Hloop. unfold bind in Hloop.
    destruct (for_each l iteration s0) as [s1 [[]|e]] eqn:H1; [|done].
    destruct (loop_run _ _ _ _ Ht0 H1) as (_ & _ & _ & _ & Ht1 & _).
    cbn in Hloop. unfold bind in Hloop.
    destruct (iteration n s1) as [s2 [[]|e]] eqn:H2; [|done].
    injection Hloop as <-.
    destruct (iteration_run _ _ _ _ Ht1 H2) as (_ & _ & _ & _ & [->|[o ->]]).
    + by rewrite lookup_insert_eq.
    + rewrite lookup_insert_ne by done. by rewrite lookup_insert_eq.
Qed.

End Reads.

Section Names.
Context {World Obj Exc : Type} {L : Library World Obj Exc}.
#[local] Abbreviation value := (value Obj).
#[local] Abbreviation event := (event Obj Exc).
#[local] Abbreviation state := (state World Obj Exc).





End Names.

(** X2, X3 and X4 at the library in which every call returns. *)
Lemma reads_follow_sphinx_vars_witness :
  read_names (trace (run_module (L:=all_returns) []).1) = sphinx_names.
Proof.
  refine (proj1 (proj2
    (reads_follow_sphinx_vars (L:=all_returns) []
       (run_module (L:=all_returns) []).1 (Ok tt)
       ltac:(not_listed) ltac:(not_listed) ltac:(not_listed) _)) eq_refl).
  vm_compute. reflexivity.
Defined.

Lemma loop_variable_after_run_witness :
  globals (run_module (L:=all_returns) []).1 !! "sphinx_var" =
    Some (VStr "html_theme_options").
Proof.
  refine (proj2
    (loop_variable_after_run (L:=all_returns) []
       (run_module (L:=all_returns) []).1 _) "html_theme_options" eq_refl _).
  - vm_compute. reflexivity.
  - discriminate.
Defined.

